(** * bts::vote::ballot_box — index maintenance and queries

    A shallow embedding of [libraries/vote/ballot_box.cpp]: the three
    durable tables ([decision_db], [ballot_db], [contest_db]), the
    in-memory secondary indices built from them, the lifecycle
    operations [open] / [clear] / [close], the three [store_record]
    overloads and the query operations, followed by the properties the
    specification states about them. *)

From Stdlib Require Import ZArith List String Ascii Bool Lia Sorted Permutation.
Import ListNotations.
Open Scope string_scope.
Open Scope Z_scope.
Open Scope list_scope.

(** ** Key orders

    [std::multimap], [ordered_non_unique] and the durable table all
    order their keys with [operator<]. *)

Class KeyLt (K : Type) : Type := key_lt : K -> K -> bool.

(** Equivalence of keys as the containers see it: neither is below the
    other. *)
Definition key_eqb {K} `{KeyLt K} (a b : K) : bool :=
  negb (key_lt a b) && negb (key_lt b a).

(** The laws the containers rely on: a strict total order. *)
Class KeyOrder (K : Type) {KLt : KeyLt K} : Prop := {
  key_lt_irrefl : forall a : K, key_lt a a = false;
  key_lt_trans : forall a b c : K,
      key_lt a b = true -> key_lt b c = true -> key_lt a c = true;
  key_lt_connex : forall a b : K,
      key_lt a b = false -> key_lt b a = false -> a = b
}.

(** [digest_type] keys: an unsigned 256-bit hash compared as a number. *)
#[export] Instance Z_KeyLt : KeyLt Z := Z.ltb.

(** [std::string] keys: lexicographic on the bytes. *)
#[export] Instance string_KeyLt : KeyLt string := String.ltb.

(** The composite key of [contest_tags_index]: first component, then
    second. *)
Definition pair_lt {K1 K2} `{KeyLt K1} `{KeyLt K2} (a b : K1 * K2) : bool :=
  key_lt (fst a) (fst b)
  || (negb (key_lt (fst b) (fst a)) && key_lt (snd a) (snd b)).

#[export] Instance pair_KeyLt {K1 K2} `{KeyLt K1} `{KeyLt K2}
  : KeyLt (K1 * K2) := pair_lt.

(** ** Ordered sequences

    [std::multimap<K,V>] and the [ordered_non_unique] view of a
    [multi_index_container] keep their elements in non-decreasing key
    order; an element whose key is already present is inserted after
    the existing ones.  The container is the list of its elements in
    iteration order and an iterator is a position in that list
    ([length l] is [end()]). *)

Section OrderedSeq.
Context {A K : Type} `{KeyLt K}.
Variable key : A -> K.

(** First position whose key is not below [k]. *)
Fixpoint lower_bound (k : K) (l : list A) : nat :=
  match l with
  | [] => 0%nat
  | x :: t => if key_lt (key x) k then S (lower_bound k t) else 0%nat
  end.

(** First position whose key is above [k]. *)
Fixpoint upper_bound (k : K) (l : list A) : nat :=
  match l with
  | [] => 0%nat
  | x :: t => if key_lt k (key x) then 0%nat else S (upper_bound k t)
  end.

Definition equal_range (k : K) (l : list A) : nat * nat :=
  (lower_bound k l, upper_bound k l).

(** [insert]: the new element goes to the upper bound of its key. *)
Fixpoint insert (e : A) (l : list A) : list A :=
  match l with
  | [] => [e]
  | x :: t => if key_lt (key e) (key x) then e :: l else x :: insert e t
  end.

(** [std::for_each(range.first, range.second, ...)] visits these. *)
Definition range_elems (range : nat * nat) (l : list A) : list A :=
  firstn (snd range - fst range) (skipn (fst range) l).

(** The loop [for (itr = first; itr != last; itr = upper_bound(k))
    results.push_back(v);] where [k] and [v] are the key and the
    output field of the element under [itr].  Dereferencing a position
    outside the container has no defined result ([None]), and so has
    running out of [fuel]. *)
Fixpoint distinct_scan {B} (out : A -> B) (l : list A)
  (fuel itr last : nat) : option (list B) :=
  if Nat.eqb itr last then Some []
  else match fuel with
       | O => None
       | S fuel' =>
           match nth_error l itr with
           | None => None
           | Some e =>
               option_map (cons (out e))
                 (distinct_scan out l fuel' (upper_bound (key e) l) last)
           end
       end.

Definition sorted_by (l : list A) : Prop :=
  StronglySorted (fun a b => key_lt (key b) (key a) = false) l.

End OrderedSeq.

(** ** Identifiers and record types *)

(** [fc::sha256] digests, [bts::blockchain::address] and
    [public_key_type] are fixed-width byte strings; each is the number
    its bytes spell.  A default-constructed digest is all zero. *)
Abbreviation digest_type := Z (only parsing).
Abbreviation address := Z (only parsing).
Abbreviation public_key_type := Z (only parsing).
Abbreviation path := string (only parsing).

(** [data_dir / "name"] *)
Definition path_append (dir : path) (name : string) : path :=
  (dir ++ "/" ++ name)%string.

(** Modelled from the spec: the record types declared in
    bts/vote/types.hpp, which is not among the sources.  Each record
    carries the members this file reads, under their own names, and one
    field standing for all the others. *)
Module signed_voter_decision.
Record t : Type := mk {
  contest_id : digest_type;
  ballot_id : digest_type;
  write_in_names : list string;
  other_members : string
}.
(** [signed_voter_decision()] *)
Definition default : t := mk 0 0 [] "".
End signed_voter_decision.

Module ballot.
Record t : Type := mk {
  contests : list digest_type;
  other_members : string
}.
End ballot.

Module contestant.
Record t : Type := mk {
  name : string;
  other_members : string
}.
End contestant.

Module contest.
Record t : Type := mk {
  contestants : list contestant.t;
  tags : list (string * string);
  other_members : string
}.
End contest.

(** ** Errors *)

Inductive error : Type :=
| AlreadyOpen   (* open of something that is open *)
| NotOpen       (* use or close of something that is not open *)
| NotFound.     (* fetch of an absent identifier *)

Definition result (A : Type) : Type := (error + A)%type.

(** ** The durable table *)

(** Modelled from the spec: [bts::db::level_map<digest_type, V>]
    (bts/db/level_map.hpp is not among the sources), after the contract
    of the Durable Record Store: [open] fails if already open, [close]
    fails if not open, [store] upserts, [fetch] fails with [NotFound]
    on an absent identifier, [remove] deletes (and does nothing for an
    absent identifier), iteration is in ascending key order.  The
    persistent contents live in [files], one table per directory, and
    survive [close]; [db] is the handle of the open directory.  Storage
    faults are not modelled: an operation fails only on a closed
    handle. *)
Module level_map.
Section Table.
Context {V : Type}.

Definition table : Type := list (digest_type * V).

Record t : Type := mk {
  db : option path;
  files : path -> table
}.

Fixpoint table_store (k : digest_type) (v : V) (tb : table) : table :=
  match tb with
  | [] => [(k, v)]
  | (k', v') :: rest =>
      if k <? k' then (k, v) :: tb
      else if k =? k' then (k, v) :: rest
      else (k', v') :: table_store k v rest
  end.

Fixpoint table_fetch (k : digest_type) (tb : table) : option V :=
  match tb with
  | [] => None
  | (k', v') :: rest => if k =? k' then Some v' else table_fetch k rest
  end.

Definition table_remove (k : digest_type) (tb : table) : table :=
  filter (fun kv => negb (fst kv =? k)) tb.

Definition write (p : path) (tb : table) (f : path -> table)
  : path -> table :=
  fun q => if String.eqb q p then tb else f q.

Definition is_open (m : t) : bool :=
  match db m with Some _ => true | None => false end.

Definition open (dir : path) (m : t) : result t :=
  match db m with
  | Some _ => inl AlreadyOpen
  | None => inr (mk (Some dir) (files m))
  end.

Definition close (m : t) : result t :=
  match db m with
  | Some _ => inr (mk None (files m))
  | None => inl NotOpen
  end.

Definition store (k : digest_type) (v : V) (m : t) : result t :=
  match db m with
  | Some p => inr (mk (Some p) (write p (table_store k v (files m p)) (files m)))
  | None => inl NotOpen
  end.

Definition fetch (k : digest_type) (m : t) : result V :=
  match db m with
  | Some p =>
      match table_fetch k (files m p) with
      | Some v => inr v
      | None => inl NotFound
      end
  | None => inl NotOpen
  end.

Definition remove (k : digest_type) (m : t) : result t :=
  match db m with
  | Some p => inr (mk (Some p) (write p (table_remove k (files m p)) (files m)))
  | None => inl NotOpen
  end.

(** [for (itr = begin(); itr.valid(); ++itr)]: the (key, value)
    pairs in ascending key order, as they were at [begin()]. *)
Definition iterate (m : t) : result table :=
  match db m with
  | Some p => inr (files m p)
  | None => inl NotOpen
  end.

(** The table of the open directory (empty when closed). *)
Definition contents (m : t) : table :=
  match db m with Some p => files m p | None => [] end.
End Table.
Arguments t : clear implicits.
Arguments table : clear implicits.
End level_map.

(** ** Index records *)

Module decision_storage_record.
(** [struct decision_storage_record : public signed_voter_decision] *)
Record t : Type := mk {
  base : signed_voter_decision.t;
  voter_key : public_key_type
}.
End decision_storage_record.

Module decision_index_record.
Record t : Type := mk {
  id : digest_type;
  voter : address;
  contest_id : digest_type;
  write_in_names : list string;
  ballot_id : digest_type
}.
End decision_index_record.

Module contest_tags_index_record.
Record t : Type := mk {
  key : string;
  value : string;
  contest_id : digest_type
}.
(** The [composite_key] of the [by_tags] index, and its one-component
    prefix used by lookups with [make_tuple(key)]. *)
Definition by_tags (r : t) : string * string := (key r, value r).
Definition by_tags_key (r : t) : string := key r.
End contest_tags_index_record.

(** ** Engine state *)

Record ballot_box_impl : Type := mk_impl {
  decision_db : level_map.t signed_voter_decision.t;
  decision_index : list decision_index_record.t;
  write_in_index : list (string * digest_type);
  ballot_db : level_map.t ballot.t;
  ballot_by_contest_index : list (digest_type * digest_type);
  contest_db : level_map.t contest.t;
  contest_tags_index : list contest_tags_index_record.t;
  contest_by_contestant_index : list (string * digest_type);
  databases_open : bool
}.

Definition set_decision_db d s :=
  mk_impl d (decision_index s) (write_in_index s) (ballot_db s)
    (ballot_by_contest_index s) (contest_db s) (contest_tags_index s)
    (contest_by_contestant_index s) (databases_open s).
Definition set_decision_index i s :=
  mk_impl (decision_db s) i (write_in_index s) (ballot_db s)
    (ballot_by_contest_index s) (contest_db s) (contest_tags_index s)
    (contest_by_contestant_index s) (databases_open s).
Definition set_write_in_index i s :=
  mk_impl (decision_db s) (decision_index s) i (ballot_db s)
    (ballot_by_contest_index s) (contest_db s) (contest_tags_index s)
    (contest_by_contestant_index s) (databases_open s).
Definition set_ballot_db d s :=
  mk_impl (decision_db s) (decision_index s) (write_in_index s) d
    (ballot_by_contest_index s) (contest_db s) (contest_tags_index s)
    (contest_by_contestant_index s) (databases_open s).
Definition set_ballot_by_contest_index i s :=
  mk_impl (decision_db s) (decision_index s) (write_in_index s) (ballot_db s)
    i (contest_db s) (contest_tags_index s)
    (contest_by_contestant_index s) (databases_open s).
Definition set_contest_db d s :=
  mk_impl (decision_db s) (decision_index s) (write_in_index s) (ballot_db s)
    (ballot_by_contest_index s) d (contest_tags_index s)
    (contest_by_contestant_index s) (databases_open s).
Definition set_contest_tags_index i s :=
  mk_impl (decision_db s) (decision_index s) (write_in_index s) (ballot_db s)
    (ballot_by_contest_index s) (contest_db s) i
    (contest_by_contestant_index s) (databases_open s).
Definition set_contest_by_contestant_index i s :=
  mk_impl (decision_db s) (decision_index s) (write_in_index s) (ballot_db s)
    (ballot_by_contest_index s) (contest_db s) (contest_tags_index s)
    i (databases_open s).
Definition set_databases_open b s :=
  mk_impl (decision_db s) (decision_index s) (write_in_index s) (ballot_db s)
    (ballot_by_contest_index s) (contest_db s) (contest_tags_index s)
    (contest_by_contestant_index s) b.

(** ** Operations that may throw

    An operation maps the engine state to its outcome and the state it
    leaves behind; an exception stops the operation where it is thrown
    and keeps the changes made before it. *)
Definition M (A : Type) : Type := ballot_box_impl -> result A * ballot_box_impl.

Definition ret {A} (a : A) : M A := fun s => (inr a, s).
Definition throw {A} (e : error) : M A := fun s => (inl e, s).
Definition bind {A B} (m : M A) (k : A -> M B) : M B :=
  fun s => match m s with
           | (inl e, s') => (inl e, s')
           | (inr a, s') => k a s'
           end.

Declare Scope engine_scope.
Delimit Scope engine_scope with engine.
Notation "x <- m ;; k" := (bind m (fun x => k))
  (at level 61, m at next level, right associativity) : engine_scope.
Notation "m ;; k" := (bind m (fun _ => k))
  (at level 61, right associativity) : engine_scope.

Definition gets {A} (f : ballot_box_impl -> A) : M A := fun s => (inr (f s), s).
Definition modify (f : ballot_box_impl -> ballot_box_impl) : M unit :=
  fun s => (inr tt, f s).

Definition FC_ASSERT (c : bool) (e : error) : M unit :=
  if c then ret tt else throw e.

(** A mutating call on one of the member tables. *)
Definition on_db {V}
  (get : ballot_box_impl -> level_map.t V)
  (set : level_map.t V -> ballot_box_impl -> ballot_box_impl)
  (op : level_map.t V -> result (level_map.t V)) : M unit :=
  fun s => match op (get s) with
           | inl e => (inl e, s)
           | inr m => (inr tt, set m s)
           end.

(** A reading call on one of the member tables. *)
Definition read_db {V A}
  (get : ballot_box_impl -> level_map.t V)
  (op : level_map.t V -> result A) : M A :=
  fun s => (op (get s), s).

Fixpoint for_each {A} (l : list A) (body : A -> M unit) : M unit :=
  match l with
  | [] => ret tt
  | x :: t => bind (body x) (fun _ => for_each t body)
  end.

(** ** The engine: [detail::ballot_box_impl] *)

(** The identity functions and the key recovery of the record types
    ([signed_voter_decision::digest()], [voter_public_key()],
    [ballot::id()], [contest::id()] and the [address] constructor) are
    declared outside this file; they are taken as total functions and
    the engine is defined over any choice of them. *)
Class RecordIdentity : Type := {
  digest : signed_voter_decision.t -> digest_type;
  voter_public_key : signed_voter_decision.t -> public_key_type;
  address_of_key : public_key_type -> address;
  ballot_id : ballot.t -> digest_type;
  contest_id : contest.t -> digest_type
}.

Section BallotBox.
Context {ids : RecordIdentity}.
Open Scope engine_scope.

(** [decision_storage_record(const signed_voter_decision& =
    signed_voter_decision()){}]: the argument is not handed to the
    base class, which is therefore default-constructed; [voter_key]
    is initialised from [voter_public_key()] of that base. *)
Definition decision_storage_record_ctor (_ : signed_voter_decision.t)
  : decision_storage_record.t :=
  let base := signed_voter_decision.default in
  decision_storage_record.mk base (voter_public_key base).

(** [decision_index_record(id, s)] *)
Definition decision_index_record_ctor (id : digest_type)
  (s : decision_storage_record.t) : decision_index_record.t :=
  decision_index_record.mk
    id
    (address_of_key (decision_storage_record.voter_key s))
    (signed_voter_decision.contest_id (decision_storage_record.base s))
    (signed_voter_decision.write_in_names (decision_storage_record.base s))
    (signed_voter_decision.ballot_id (decision_storage_record.base s)).

(** [decision_index.insert]: the [hashed_unique<by_id>] view refuses
    a record whose [id] is present.  The container is the list of its
    records in insertion order. *)
Definition decision_index_insert (r : decision_index_record.t)
  (idx : list decision_index_record.t) : list decision_index_record.t :=
  if existsb (fun r' => decision_index_record.id r' =? decision_index_record.id r) idx
  then idx else idx ++ [r].

Definition update_index_decision (id : digest_type)
  (storage_record : decision_storage_record.t)
  (s : ballot_box_impl) : ballot_box_impl :=
  let s := set_decision_index
             (decision_index_insert
                (decision_index_record_ctor id storage_record)
                (decision_index s)) s in
  fold_left
    (fun s write_in =>
       set_write_in_index (insert fst (write_in, id) (write_in_index s)) s)
    (signed_voter_decision.write_in_names
       (decision_storage_record.base storage_record))
    s.

Definition update_index_ballot (id : digest_type) (ballot_record : ballot.t)
  (s : ballot_box_impl) : ballot_box_impl :=
  fold_left
    (fun s contest =>
       set_ballot_by_contest_index
         (insert fst (contest, id) (ballot_by_contest_index s)) s)
    (ballot.contests ballot_record)
    s.

Definition update_index_contest (id : digest_type) (contest_record : contest.t)
  (s : ballot_box_impl) : ballot_box_impl :=
  let s := fold_left
             (fun s contestant =>
                set_contest_by_contestant_index
                  (insert fst (contestant.name contestant, id)
                     (contest_by_contestant_index s)) s)
             (contest.contestants contest_record)
             s in
  fold_left
    (fun s tag_pair =>
       set_contest_tags_index
         (insert contest_tags_index_record.by_tags
            (contest_tags_index_record.mk (fst tag_pair) (snd tag_pair) id)
            (contest_tags_index s)) s)
    (contest.tags contest_record)
    s.

Definition store_record_decision (decision : signed_voter_decision.t) : M unit :=
  let id := digest decision in
  let record := decision_storage_record_ctor decision in
  on_db decision_db set_decision_db
    (level_map.store id (decision_storage_record.base record)) ;;
  modify (update_index_decision id record).

Definition store_record_ballot (ballot : ballot.t) : M unit :=
  let id := ballot_id ballot in
  on_db ballot_db set_ballot_db (level_map.store id ballot) ;;
  modify (update_index_ballot id ballot).

Definition store_record_contest (contest : contest.t) : M unit :=
  let id := contest_id contest in
  on_db contest_db set_contest_db (level_map.store id contest) ;;
  modify (update_index_contest id contest).

Definition open (data_dir : path) : M unit :=
  is_open <- gets databases_open ;;
  FC_ASSERT (negb is_open) AlreadyOpen ;;

  on_db decision_db set_decision_db
    (level_map.open (path_append data_dir "decision_db")) ;;
  records <- read_db decision_db level_map.iterate ;;
  for_each records (fun kv =>
    modify (update_index_decision (fst kv)
              (decision_storage_record_ctor (snd kv)))) ;;

  on_db ballot_db set_ballot_db
    (level_map.open (path_append data_dir "ballot_db")) ;;
  records <- read_db ballot_db level_map.iterate ;;
  for_each records (fun kv => modify (update_index_ballot (fst kv) (snd kv))) ;;

  on_db contest_db set_contest_db
    (level_map.open (path_append data_dir "contest_db")) ;;
  records <- read_db contest_db level_map.iterate ;;
  for_each records (fun kv => modify (update_index_contest (fst kv) (snd kv))) ;;

  modify (set_databases_open true).

Definition clear : M unit :=
  is_open <- gets databases_open ;;
  (if is_open then
     records <- read_db decision_db level_map.iterate ;;
     for_each records (fun kv =>
       on_db decision_db set_decision_db (level_map.remove (fst kv))) ;;
     records <- read_db ballot_db level_map.iterate ;;
     for_each records (fun kv =>
       on_db ballot_db set_ballot_db (level_map.remove (fst kv))) ;;
     records <- read_db contest_db level_map.iterate ;;
     for_each records (fun kv =>
       on_db contest_db set_contest_db (level_map.remove (fst kv)))
   else ret tt) ;;

  modify (set_decision_index []) ;;
  modify (set_write_in_index []) ;;
  modify (set_ballot_by_contest_index []) ;;
  modify (set_contest_by_contestant_index []) ;;
  modify (set_contest_tags_index []).

Definition close : M unit :=
  is_open <- gets databases_open ;;
  FC_ASSERT is_open NotOpen ;;

  modify (set_databases_open false) ;;

  on_db decision_db set_decision_db level_map.close ;;
  on_db ballot_db set_ballot_db level_map.close ;;
  on_db contest_db set_contest_db level_map.close ;;

  clear.

(** [get_decisions_by_key<Index>]: the records of the hashed view's
    [equal_range], which are the records with that key; the order in
    which a hashed view lists them is not specified, the model lists
    them in insertion order. *)
Definition get_decisions_by_key {Key}
  (Index : decision_index_record.t -> Key) (eqb : Key -> Key -> bool)
  (key : Key) (s : ballot_box_impl) : list digest_type :=
  map decision_index_record.id
    (filter (fun rec => eqb (Index rec) key) (decision_index s)).

Definition get_decisions_by_voter (voter : address) :=
  get_decisions_by_key decision_index_record.voter Z.eqb voter.
Definition get_decisions_by_contest (contest_id : digest_type) :=
  get_decisions_by_key decision_index_record.contest_id Z.eqb contest_id.
Definition get_decisions_by_ballot (ballot_id : digest_type) :=
  get_decisions_by_key decision_index_record.ballot_id Z.eqb ballot_id.

(** The scans are given as many steps as the container has
    elements. *)
Definition get_all_write_ins (s : ballot_box_impl) : option (list string) :=
  let idx := write_in_index s in
  distinct_scan fst fst idx (List.length idx) 0%nat (List.length idx).

Definition get_decisions_with_write_in (write_in_name : string)
  (s : ballot_box_impl) : list digest_type :=
  let idx := write_in_index s in
  map snd (range_elems (equal_range fst write_in_name idx) idx).

Definition get_ballots_by_contest (contest_id : digest_type)
  (s : ballot_box_impl) : list digest_type :=
  let idx := ballot_by_contest_index s in
  map snd (range_elems (equal_range fst contest_id idx) idx).

Definition get_values_by_tag (key : string) (s : ballot_box_impl)
  : option (list string) :=
  let idx := contest_tags_index s in
  distinct_scan contest_tags_index_record.by_tags
    contest_tags_index_record.value idx (List.length idx)
    (lower_bound contest_tags_index_record.by_tags_key key idx)
    (upper_bound contest_tags_index_record.by_tags_key key idx).

Definition get_contests_by_tags (key value : string) (s : ballot_box_impl)
  : list digest_type :=
  let idx := contest_tags_index s in
  let range := equal_range contest_tags_index_record.by_tags (key, value) idx in
  let range :=
    if String.eqb value "" (* value.empty() *)
    then equal_range contest_tags_index_record.by_tags_key key idx
    else range in
  map contest_tags_index_record.contest_id (range_elems range idx).

Definition get_contests_by_contestant (contestant : string)
  (s : ballot_box_impl) : list digest_type :=
  let idx := contest_by_contestant_index s in
  map snd (range_elems (equal_range fst contestant idx) idx).

(** ** The facade: [ballot_box]

    [ballot_box::ballot_box()] makes a fresh engine; the other
    members forward to it (the query members forward to the functions
    above unchanged). *)

(** A default-constructed engine over the given persistent
    contents. *)
Definition ballot_box_new
  (decision_files : path -> level_map.table signed_voter_decision.t)
  (ballot_files : path -> level_map.table ballot.t)
  (contest_files : path -> level_map.table contest.t) : ballot_box_impl :=
  mk_impl (level_map.mk None decision_files) [] []
          (level_map.mk None ballot_files) []
          (level_map.mk None contest_files) [] []
          false.

Definition ballot_box_open (data_dir : path) : M unit := open data_dir.
Definition ballot_box_is_open (s : ballot_box_impl) : bool := databases_open s.
Definition ballot_box_clear : M unit := clear.
(** [my->decision_db.close();] *)
Definition ballot_box_close : M unit :=
  on_db decision_db set_decision_db level_map.close.
Definition ballot_box_store_new_decision decision : M unit :=
  store_record_decision decision.
Definition ballot_box_get_decision (id : digest_type) : M signed_voter_decision.t :=
  read_db decision_db (level_map.fetch id).
Definition ballot_box_store_ballot ballot : M unit := store_record_ballot ballot.
Definition ballot_box_get_ballot (id : digest_type) : M ballot.t :=
  read_db ballot_db (level_map.fetch id).
Definition ballot_box_store_contest contest : M unit := store_record_contest contest.
Definition ballot_box_get_contest (id : digest_type) : M contest.t :=
  read_db contest_db (level_map.fetch id).
End BallotBox.

(** ** Sessions and logs

    The vocabulary of the statements below: a session opens a
    directory and performs a sequence of store calls through the
    facade; the log of a record kind lists what a table held at [open]
    followed by what the session stored. *)

Inductive store_op : Type :=
| StoreDecision (decision : signed_voter_decision.t)
| StoreBallot (ballot : ballot.t)
| StoreContest (contest : contest.t).

Definition decisions_of (ops : list store_op) : list signed_voter_decision.t :=
  flat_map (fun op => match op with StoreDecision d => [d] | _ => [] end) ops.
Definition ballots_of (ops : list store_op) : list ballot.t :=
  flat_map (fun op => match op with StoreBallot b => [b] | _ => [] end) ops.
Definition contests_of (ops : list store_op) : list contest.t :=
  flat_map (fun op => match op with StoreContest c => [c] | _ => [] end) ops.

(** The index entries one stored record gives rise to. *)
Definition ballot_entries (kv : digest_type * ballot.t)
  : list (digest_type * digest_type) :=
  map (fun contest => (contest, fst kv)) (ballot.contests (snd kv)).
Definition contestant_entries (kv : digest_type * contest.t)
  : list (string * digest_type) :=
  map (fun c => (contestant.name c, fst kv)) (contest.contestants (snd kv)).
Definition tag_entries (kv : digest_type * contest.t)
  : list contest_tags_index_record.t :=
  map (fun tag_pair =>
         contest_tags_index_record.mk (fst tag_pair) (snd tag_pair) (fst kv))
      (contest.tags (snd kv)).

(** Successive [insert]s into an ordered container. *)
Definition insert_all {A K} `{KeyLt K} (key : A -> K)
  (es : list A) (idx : list A) : list A :=
  fold_left (fun idx e => insert key e idx) es idx.

(** Successive [store]s into the table of directory [p]. *)
Definition store_files {V} (p : path) (kvs : list (digest_type * V))
  (f : path -> level_map.table V) : path -> level_map.table V :=
  fold_left
    (fun f kv => level_map.write p (level_map.table_store (fst kv) (snd kv) (f p)) f)
    kvs f.

Definition table_store_all {V} (kvs : list (digest_type * V))
  (tb : level_map.table V) : level_map.table V :=
  fold_left (fun tb kv => level_map.table_store (fst kv) (snd kv) tb) kvs tb.

(** Successive [remove]s from the table of directory [p]. *)
Definition remove_files {V} (p : path) (recs : level_map.table V)
  (f : path -> level_map.table V) : path -> level_map.table V :=
  fold_left
    (fun f kv => level_map.write p (level_map.table_remove (fst kv) (f p)) f)
    recs f.

(** Results compared as sets. *)
Definition same_set {A} (l1 l2 : list A) : Prop :=
  forall x, In x l1 <-> In x l2.
Definition same_set_returned {A} (o1 o2 : option (list A)) : Prop :=
  match o1, o2 with
  | Some l1, Some l2 => same_set l1 l2
  | _, _ => False
  end.

(** No identifier names two different records. *)
Definition functional_log {V} (log : list (digest_type * V)) : Prop :=
  forall kv kv', In kv log -> In kv' log -> fst kv = fst kv' -> snd kv = snd kv'.

(** A table as the engine writes it: keys strictly ascending. *)
Definition table_sorted {V} (tb : level_map.table V) : Prop :=
  StronglySorted (fun a b => fst a < fst b) tb.

Section Session.
Context {ids : RecordIdentity}.
Open Scope engine_scope.

Definition run_store_op (op : store_op) : M unit :=
  match op with
  | StoreDecision d => ballot_box_store_new_decision d
  | StoreBallot b => ballot_box_store_ballot b
  | StoreContest c => ballot_box_store_contest c
  end.

Definition session (data_dir : path) (ops : list store_op) : M unit :=
  ballot_box_open data_dir ;; for_each ops run_store_op.

(** The two steps of a store call: the durable write, which may
    fail, and the index update, which cannot. *)
Definition persist (op : store_op) (s : ballot_box_impl)
  : result ballot_box_impl :=
  match op with
  | StoreDecision d =>
      match level_map.store (digest d)
              (decision_storage_record.base (decision_storage_record_ctor d))
              (decision_db s) with
      | inl e => inl e
      | inr m => inr (set_decision_db m s)
      end
  | StoreBallot b =>
      match level_map.store (ballot_id b) b (ballot_db s) with
      | inl e => inl e
      | inr m => inr (set_ballot_db m s)
      end
  | StoreContest c =>
      match level_map.store (contest_id c) c (contest_db s) with
      | inl e => inl e
      | inr m => inr (set_contest_db m s)
      end
  end.

Definition index (op : store_op) (s : ballot_box_impl) : ballot_box_impl :=
  match op with
  | StoreDecision d =>
      update_index_decision (digest d) (decision_storage_record_ctor d) s
  | StoreBallot b => update_index_ballot (ballot_id b) b s
  | StoreContest c => update_index_contest (contest_id c) c s
  end.

(** Every query of the engine gives the same set of results in both
    states (and the two scanning queries return in both). *)
Definition same_query_results (s s' : ballot_box_impl) : Prop :=
  (forall k, same_set (get_decisions_by_voter k s) (get_decisions_by_voter k s'))
  /\ (forall k, same_set (get_decisions_by_contest k s) (get_decisions_by_contest k s'))
  /\ (forall k, same_set (get_decisions_by_ballot k s) (get_decisions_by_ballot k s'))
  /\ same_set_returned (get_all_write_ins s) (get_all_write_ins s')
  /\ (forall k, same_set (get_decisions_with_write_in k s)
                  (get_decisions_with_write_in k s'))
  /\ (forall k, same_set (get_ballots_by_contest k s) (get_ballots_by_contest k s'))
  /\ (forall k, same_set_returned (get_values_by_tag k s) (get_values_by_tag k s'))
  /\ (forall k v, same_set (get_contests_by_tags k v s) (get_contests_by_tags k v s'))
  /\ (forall k, same_set (get_contests_by_contestant k s)
                  (get_contests_by_contestant k s')).

(** The index record every decision is given: the storage record it
    is built from is always the default-constructed one. *)
Definition decision_entry (id : digest_type) : decision_index_record.t :=
  decision_index_record_ctor id
    (decision_storage_record_ctor signed_voter_decision.default).

(** Successive inserts of decision entries into the decision index. *)
Definition decision_index_of (keys : list digest_type)
  (idx : list decision_index_record.t) : list decision_index_record.t :=
  fold_left (fun idx k => decision_index_insert (decision_entry k) idx)
    keys idx.

Definition decision_log (tb : level_map.table signed_voter_decision.t)
  (ops : list store_op) : list digest_type :=
  map fst tb ++ map digest (decisions_of ops).
Definition ballot_log (tb : level_map.table ballot.t) (ops : list store_op)
  : list (digest_type * ballot.t) :=
  tb ++ map (fun b => (ballot_id b, b)) (ballots_of ops).
Definition contest_log (tb : level_map.table contest.t) (ops : list store_op)
  : list (digest_type * contest.t) :=
  tb ++ map (fun c => (contest_id c, c)) (contests_of ops).

(** The state a session leaves behind, in closed form. *)
Definition session_state (data_dir : path) (ops : list store_op)
  (decision_files : path -> level_map.table signed_voter_decision.t)
  (ballot_files : path -> level_map.table ballot.t)
  (contest_files : path -> level_map.table contest.t) : ballot_box_impl :=
  let pd := path_append data_dir "decision_db" in
  let pb := path_append data_dir "ballot_db" in
  let pc := path_append data_dir "contest_db" in
  mk_impl
    (level_map.mk (Some pd)
       (store_files pd
          (map (fun d => (digest d, signed_voter_decision.default))
             (decisions_of ops))
          decision_files))
    (decision_index_of (decision_log (decision_files pd) ops) [])
    []
    (level_map.mk (Some pb)
       (store_files pb (map (fun b => (ballot_id b, b)) (ballots_of ops))
          ballot_files))
    (insert_all fst
       (flat_map ballot_entries (ballot_log (ballot_files pb) ops)) [])
    (level_map.mk (Some pc)
       (store_files pc (map (fun c => (contest_id c, c)) (contests_of ops))
          contest_files))
    (insert_all contest_tags_index_record.by_tags
       (flat_map tag_entries (contest_log (contest_files pc) ops)) [])
    (insert_all fst
       (flat_map contestant_entries (contest_log (contest_files pc) ops)) [])
    true.
End Session.

(** ** A concrete instance

    Identity functions and records used to run the engine on concrete
    inputs. *)
Module Example.
Definition ids : RecordIdentity := {|
  digest d :=
    1000 + 10 * signed_voter_decision.contest_id d
    + signed_voter_decision.ballot_id d;
  voter_public_key d :=
    500 + Z.of_nat (String.length (signed_voter_decision.other_members d));
  address_of_key k := k + 1;
  ballot_id b := fold_right Z.add 2000 (ballot.contests b);
  contest_id c := 3000 + Z.of_nat (List.length (contest.tags c))
|}.

(** A directory tree without any table yet. *)
Definition no_files {V} : path -> level_map.table V := fun _ => [].

Definition fresh : ballot_box_impl := ballot_box_new no_files no_files no_files.

Definition decision1 : signed_voter_decision.t :=
  signed_voter_decision.mk 7 9 ["Alice Smith"] "signature-1".
Definition decision2 : signed_voter_decision.t :=
  signed_voter_decision.mk 8 9 ["Alice Smith"] "signature-2".
Definition ballot1 : ballot.t := ballot.mk [7; 8] "ballot one".
Definition contest1 : contest.t :=
  contest.mk [contestant.mk "Bob" ""]
    [("region", "north"); ("region", "south")] "".

Definition ops : list store_op :=
  [StoreContest contest1; StoreBallot ballot1; StoreBallot ballot1;
   StoreDecision decision1; StoreDecision decision2].
End Example.

(** Storage records that do carry their decision, and an engine state
    indexed from them with [update_index]. *)
Module IndexedExample.
Definition record1 : decision_storage_record.t :=
  decision_storage_record.mk Example.decision1 511.
Definition record2 : decision_storage_record.t :=
  decision_storage_record.mk Example.decision2 512.
Definition indexed : ballot_box_impl :=
  @update_index_decision Example.ids 2 record2
    (@update_index_decision Example.ids 1 record1 Example.fresh).
End IndexedExample.

(** * Properties *)

(** ** Key orders *)

Lemma key_eqb_eq {K} `{KeyOrder K} (a b : K) : key_eqb a b = true <-> a = b.
Proof.
  unfold key_eqb; split.
  - intro E. apply andb_true_iff in E as [E1 E2].
    apply negb_true_iff in E1, E2. now apply key_lt_connex.
  - intros ->. now rewrite key_lt_irrefl.
Qed.

Lemma key_lt_asym {K} `{KeyOrder K} (a b : K) :
  key_lt a b = true -> key_lt b a = false.
Proof.
  intro E. destruct (key_lt b a) eqn:E'; trivial.
  pose proof (key_lt_trans _ _ _ E E') as T.
  now rewrite key_lt_irrefl in T.
Qed.

(** Chaining of "not above" with "below", used when scanning a sorted
    sequence. *)
Lemma key_le_lt_trans {K} `{KeyOrder K} (a b c : K) :
  key_lt b a = false -> key_lt b c = true -> key_lt a c = true.
Proof.
  intros E1 E2. destruct (key_lt a b) eqn:E3.
  - eapply key_lt_trans; eassumption.
  - now rewrite (key_lt_connex _ _ E3 E1).
Qed.

Lemma key_lt_le_trans {K} `{KeyOrder K} (a b c : K) :
  key_lt a b = true -> key_lt c b = false -> key_lt a c = true.
Proof.
  intros E1 E2. destruct (key_lt b c) eqn:E3.
  - eapply key_lt_trans; eassumption.
  - now rewrite <- (key_lt_connex _ _ E3 E2).
Qed.

Lemma key_le_trans {K} `{KeyOrder K} (a b c : K) :
  key_lt b a = false -> key_lt c b = false -> key_lt c a = false.
Proof.
  intros E1 E2. destruct (key_lt c a) eqn:E3; trivial.
  pose proof (key_lt_le_trans _ _ _ E3 E1) as T. congruence.
Qed.

#[export] Instance Z_KeyOrder : KeyOrder Z.
Proof.
  split; unfold key_lt, Z_KeyLt.
  - intro a. apply Z.ltb_irrefl.
  - intros a b c E1 E2. apply Z.ltb_lt in E1, E2. apply Z.ltb_lt. lia.
  - intros a b E1 E2. apply Z.ltb_ge in E1, E2. lia.
Qed.

Lemma ascii_compare_refl a : Ascii.compare a a = Eq.
Proof. unfold Ascii.compare. apply N.compare_refl. Qed.

Lemma string_compare_refl s : String.compare s s = Eq.
Proof.
  induction s as [|a s IH]; simpl; trivial.
  now rewrite ascii_compare_refl.
Qed.

Lemma string_compare_lt_trans s1 : forall s2 s3,
  String.compare s1 s2 = Lt -> String.compare s2 s3 = Lt ->
  String.compare s1 s3 = Lt.
Proof.
  induction s1 as [|a s1 IH]; intros [|b s2] [|c s3]; simpl; try congruence.
  unfold Ascii.compare.
  destruct (N.compare_spec (N_of_ascii a) (N_of_ascii b)) as [E1|E1|E1];
    try discriminate;
    destruct (N.compare_spec (N_of_ascii b) (N_of_ascii c)) as [E2|E2|E2];
    try discriminate; intros H1 H2.
  - rewrite E1, E2, N.compare_refl. eauto.
  - rewrite E1. now apply N.compare_lt_iff in E2 as ->.
  - rewrite <- E2. now apply N.compare_lt_iff in E1 as ->.
  - assert (E3 : (N_of_ascii a < N_of_ascii c)%N) by lia.
    now apply N.compare_lt_iff in E3 as ->.
Qed.

#[export] Instance string_KeyOrder : KeyOrder string.
Proof.
  split; unfold key_lt, string_KeyLt.
  - intro a. unfold String.ltb. now rewrite string_compare_refl.
  - intros a b c. unfold String.ltb.
    destruct (String.compare a b) eqn:E1; try discriminate.
    destruct (String.compare b c) eqn:E2; try discriminate.
    now rewrite (string_compare_lt_trans _ _ _ E1 E2).
  - intros a b. unfold String.ltb. rewrite (String.compare_antisym b a).
    destruct (String.compare a b) eqn:E1; simpl; try discriminate.
    intros _ _. now apply String.compare_eq_iff.
Qed.

Lemma key_lt_pair {K1 K2} `{KeyLt K1} `{KeyLt K2} (a b : K1 * K2) :
  key_lt a b = pair_lt a b.
Proof. reflexivity. Qed.

#[export] Instance pair_KeyOrder {K1 K2}
  `{KeyOrder K1} `{KeyOrder K2} : KeyOrder (K1 * K2).
Proof.
  split.
  - intros [a b]. rewrite key_lt_pair. unfold pair_lt; simpl.
    now rewrite !key_lt_irrefl.
  - intros [a1 a2] [b1 b2] [c1 c2]. rewrite !key_lt_pair.
    unfold pair_lt; simpl.
    destruct (key_lt a1 b1) eqn:E1; simpl.
    + intros _. destruct (key_lt b1 c1) eqn:E2; simpl.
      * intros _. now rewrite (key_lt_trans _ _ _ E1 E2).
      * destruct (key_lt c1 b1) eqn:E3; simpl; try discriminate.
        intros _. now rewrite (key_lt_le_trans _ _ _ E1 E3).
    + destruct (key_lt b1 a1) eqn:E2; simpl; try discriminate.
      pose proof (key_lt_connex _ _ E1 E2) as ->.
      intros E3. destruct (key_lt b1 c1) eqn:E4; simpl; trivial.
      destruct (key_lt c1 b1); simpl; try discriminate.
      intros E5. apply (key_lt_trans _ _ _ E3 E5).
  - intros [a1 a2] [b1 b2]. rewrite !key_lt_pair. unfold pair_lt; simpl.
    destruct (key_lt a1 b1) eqn:E1; simpl; try discriminate.
    destruct (key_lt b1 a1) eqn:E2; simpl; try discriminate.
    intros E3 E4. f_equal; now apply key_lt_connex.
Qed.


(** ** Ordered sequences *)

Section OrderedSeqFacts.
Context {A K : Type} `{KeyOrder K}.
Variable key : A -> K.

Lemma sorted_by_nil : sorted_by key [].
Proof. constructor. Qed.

Lemma sorted_by_inv x t :
  sorted_by key (x :: t) ->
  sorted_by key t /\ forall y, In y t -> key_lt (key y) (key x) = false.
Proof.
  intro S. apply StronglySorted_inv in S as [S F]. split; trivial.
  now apply Forall_forall.
Qed.

Lemma insert_perm e l : Permutation (insert key e l) (e :: l).
Proof.
  induction l as [|x t IH]; simpl; trivial.
  destruct (key_lt (key e) (key x)); trivial.
  rewrite IH. apply perm_swap.
Qed.

Lemma In_insert e l y : In y (insert key e l) <-> y = e \/ In y l.
Proof.
  split; intro I.
  - apply (Permutation_in _ (insert_perm e l)) in I. simpl in I.
    destruct I; auto.
  - apply (Permutation_in _ (Permutation_sym (insert_perm e l))).
    simpl. destruct I; auto.
Qed.

Lemma insert_sorted e l : sorted_by key l -> sorted_by key (insert key e l).
Proof.
  induction l as [|x t IH]; simpl; intro S.
  - repeat constructor.
  - destruct (key_lt (key e) (key x)) eqn:E.
    + constructor; trivial. apply Forall_forall. intros y [<-|I].
      * now apply key_lt_asym.
      * apply sorted_by_inv in S as [_ S]. specialize (S y I).
        destruct (key_lt (key y) (key e)) eqn:E'; trivial.
        pose proof (key_lt_trans _ _ _ E' E). congruence.
    + apply sorted_by_inv in S as [S1 S2]. constructor; [now apply IH|].
      apply Forall_forall. intros y I. apply In_insert in I as [->|I]; auto.
Qed.

(** *** Positions *)

Lemma sorted_by_nth l : sorted_by key l -> forall i j a b,
    (i <= j)%nat -> nth_error l i = Some a -> nth_error l j = Some b ->
    key_lt (key b) (key a) = false.
Proof.
  induction l as [|x t IH]; intros S i j a b L Ea Eb.
  - now destruct i.
  - apply sorted_by_inv in S as [S1 S2].
    destruct i as [|i], j as [|j]; simpl in *; try lia.
    + inversion Ea; inversion Eb; subst. apply key_lt_irrefl.
    + inversion Ea; subst. apply S2. eapply nth_error_In; eassumption.
    + apply (IH S1 i j a b); trivial. lia.
Qed.

Lemma upper_bound_le_length k l : (upper_bound key k l <= List.length l)%nat.
Proof.
  induction l as [|x t IH]; simpl; trivial.
  destruct (key_lt k (key x)); lia.
Qed.

Lemma upper_bound_before k l : forall j e,
    (j < upper_bound key k l)%nat -> nth_error l j = Some e ->
    key_lt k (key e) = false.
Proof.
  induction l as [|x t IH]; simpl; intros j e L E; [lia|].
  destruct (key_lt k (key x)) eqn:Ex; [lia|].
  destruct j as [|j]; simpl in E.
  - now inversion E; subst.
  - apply (IH j); trivial. lia.
Qed.

Lemma upper_bound_after k l : sorted_by key l -> forall j e,
    (upper_bound key k l <= j)%nat -> nth_error l j = Some e ->
    key_lt k (key e) = true.
Proof.
  induction l as [|x t IH]; simpl; intros S j e L E.
  - now destruct j.
  - pose proof (sorted_by_inv _ _ S) as [S1 S2].
    destruct (key_lt k (key x)) eqn:Ex.
    + eapply key_lt_le_trans; [exact Ex|].
      apply (sorted_by_nth _ S 0%nat j); trivial; lia.
    + destruct j as [|j]; [lia|]. simpl in E. apply (IH S1 j); trivial. lia.
Qed.

Lemma upper_bound_own l : sorted_by key l -> forall i e,
    nth_error l i = Some e -> (i < upper_bound key (key e) l)%nat.
Proof.
  induction l as [|x t IH]; intros S i e E.
  - now destruct i.
  - pose proof (sorted_by_inv _ _ S) as [S1 S2].
    assert (Ex : key_lt (key e) (key x) = false).
    { apply (sorted_by_nth _ S 0%nat i); trivial; lia. }
    simpl. rewrite Ex. destruct i as [|i]; [lia|].
    simpl in E. specialize (IH S1 i e E). lia.
Qed.

Lemma upper_bound_le_last k l last :
  (last <= List.length l)%nat ->
  (forall e, nth_error l last = Some e -> key_lt k (key e) = true) ->
  (upper_bound key k l <= last)%nat.
Proof.
  intros L Hl.
  destruct (Nat.le_gt_cases (upper_bound key k l) last) as [|G]; trivial.
  destruct (nth_error l last) as [e|] eqn:E.
  - pose proof (upper_bound_before k l _ _ G E) as B.
    specialize (Hl e eq_refl). congruence.
  - apply nth_error_None in E. pose proof (upper_bound_le_length k l). lia.
Qed.

Lemma lower_bound_before k l : forall j e,
    (j < lower_bound key k l)%nat -> nth_error l j = Some e ->
    key_lt (key e) k = true.
Proof.
  induction l as [|x t IH]; simpl; intros j e L E; [lia|].
  destruct (key_lt (key x) k) eqn:Ex; [|lia].
  destruct j as [|j]; simpl in E.
  - now inversion E; subst.
  - apply (IH j); trivial. lia.
Qed.

Lemma lower_bound_after k l : sorted_by key l -> forall j e,
    (lower_bound key k l <= j)%nat -> nth_error l j = Some e ->
    key_lt (key e) k = false.
Proof.
  induction l as [|x t IH]; simpl; intros S j e L E.
  - now destruct j.
  - pose proof (sorted_by_inv _ _ S) as [S1 S2].
    destruct (key_lt (key x) k) eqn:Ex.
    + destruct j as [|j]; [lia|]. simpl in E. apply (IH S1 j); trivial. lia.
    + eapply key_le_trans; [exact Ex|].
      apply (sorted_by_nth _ S 0%nat j); trivial; lia.
Qed.

Lemma lower_le_upper k l : (lower_bound key k l <= upper_bound key k l)%nat.
Proof.
  induction l as [|x t IH]; simpl; trivial.
  destruct (key_lt (key x) k) eqn:E1; [|lia].
  rewrite (key_lt_asym _ _ E1). lia.
Qed.
End OrderedSeqFacts.


Section OrderedSeqQueries.
Context {A K : Type} `{KeyOrder K}.
Variable key : A -> K.

Lemma filter_none (f : A -> bool) l :
  (forall y, In y l -> f y = false) -> filter f l = [].
Proof.
  induction l as [|x t IH]; simpl; intro F; trivial.
  rewrite (F x (or_introl eq_refl)). apply IH. intros y I. apply F. now right.
Qed.

Lemma firstn_upper_bound k l :
  sorted_by key l -> (forall y, In y l -> key_lt (key y) k = false) ->
  firstn (upper_bound key k l) l = filter (fun e => key_eqb (key e) k) l.
Proof.
  induction l as [|x t IH]; simpl; intros S G; trivial.
  apply sorted_by_inv in S as [S1 S2].
  assert (Gx := G x (or_introl eq_refl)).
  unfold key_eqb at 1. rewrite Gx.
  destruct (key_lt k (key x)) eqn:E; simpl.
  - symmetry. apply filter_none. intros y I. unfold key_eqb.
    rewrite (key_lt_le_trans _ _ _ E (S2 y I)).
    now rewrite andb_false_r.
  - f_equal. apply IH; trivial. intros y I. apply G. now right.
Qed.

(** On a sorted container the elements of [equal_range k] are the
    elements whose key is [k], in container order. *)
Lemma equal_range_filter k l :
  sorted_by key l ->
  range_elems (equal_range key k l) l
  = filter (fun e => key_eqb (key e) k) l.
Proof.
  unfold range_elems, equal_range; simpl.
  induction l as [|x t IH]; simpl; intro S; trivial.
  pose proof (sorted_by_inv key _ _ S) as [S1 S2].
  destruct (key_lt (key x) k) eqn:E.
  - rewrite (key_lt_asym _ _ E). simpl. unfold key_eqb at 1. rewrite E.
    simpl. now apply IH.
  - rewrite Nat.sub_0_r. simpl skipn.
    change (firstn (upper_bound key k (x :: t)) (x :: t)
            = filter (fun e => key_eqb (key e) k) (x :: t)).
    apply firstn_upper_bound; trivial.
    intros y [<-|I]; trivial.
    eapply key_le_trans; [exact E|]. now apply S2.
Qed.

(** The group-skipping loop returns, and yields one element per
    distinct key met between [itr] and [last], keys ascending. *)
Lemma distinct_scan_spec {B} (out : A -> B) l last :
  sorted_by key l -> (last <= List.length l)%nat ->
  (forall i j a b, (i < last <= j)%nat ->
      nth_error l i = Some a -> nth_error l j = Some b ->
      key_lt (key a) (key b) = true) ->
  forall fuel itr, (last - itr <= fuel)%nat -> (itr <= last)%nat ->
  exists heads,
    distinct_scan key out l fuel itr last = Some (map out heads)
    /\ StronglySorted (fun a b => key_lt (key a) (key b) = true) heads
    /\ (forall h, In h heads ->
          exists i, (itr <= i < last)%nat /\ nth_error l i = Some h)
    /\ (forall i e, (itr <= i < last)%nat -> nth_error l i = Some e ->
          exists h, In h heads /\ key h = key e).
Proof.
  intros S Ll Beyond. induction fuel as [|fuel IH]; intros itr Lf Li.
  - assert (itr = last) as -> by lia. simpl. rewrite Nat.eqb_refl.
    exists []. repeat split; try constructor; simpl; try tauto.
    intros; lia.
  - simpl. destruct (Nat.eqb_spec itr last) as [->|N].
    { exists []. repeat split; try constructor; simpl; try tauto.
      intros; lia. }
    destruct (nth_error l itr) as [e|] eqn:E.
    2:{ apply nth_error_None in E. lia. }
    pose proof (upper_bound_own key l S _ _ E) as U1.
    assert (U2 : (upper_bound key (key e) l <= last)%nat).
    { apply upper_bound_le_last; trivial. intros e' E'.
      apply (Beyond itr last e e'); trivial. lia. }
    destruct (IH (upper_bound key (key e) l)) as (hs & R & Ss & Hin & Hall);
      try lia.
    exists (e :: hs). rewrite R. simpl. repeat split.
    + constructor; trivial. apply Forall_forall. intros h I.
      destruct (Hin h I) as (i & Hi & Ei).
      apply (upper_bound_after key (key e) l S i); trivial. lia.
    + intros h [<-|I].
      * exists itr. split; trivial. lia.
      * destruct (Hin h I) as (i & Hi & Ei). exists i. split; trivial. lia.
    + intros i x Hi Ex.
      destruct (Nat.lt_ge_cases i (upper_bound key (key e) l)) as [Lt|Ge].
      * exists e. split; [now left|].
        apply key_lt_connex.
        -- apply (upper_bound_before key (key e) l _ _ Lt Ex).
        -- apply (sorted_by_nth key l S itr i); trivial. lia.
      * destruct (Hall i x) as (h & I & Eh); trivial; [lia|].
        exists h. split; trivial. now right.
Qed.
End OrderedSeqQueries.


Section InsertAllFacts.
Context {A K : Type} `{KeyOrder K}.
Variable key : A -> K.

Lemma insert_all_app es1 es2 idx :
  insert_all key (es1 ++ es2) idx
  = insert_all key es2 (insert_all key es1 idx).
Proof. unfold insert_all. apply fold_left_app. Qed.

Lemma insert_all_perm es : forall idx,
    Permutation (insert_all key es idx) (idx ++ es).
Proof.
  induction es as [|e es IH]; intro idx; simpl.
  - now rewrite app_nil_r.
  - change (Permutation (insert_all key es (insert key e idx))
              (idx ++ e :: es)).
    rewrite IH, (insert_perm key e idx). simpl.
    apply Permutation_middle.
Qed.

Lemma insert_all_sorted es : forall idx,
    sorted_by key idx -> sorted_by key (insert_all key es idx).
Proof.
  induction es as [|e es IH]; intros idx S; simpl; trivial.
  apply IH. now apply insert_sorted.
Qed.

Lemma insert_all_nil_sorted es : sorted_by key (insert_all key es []).
Proof. apply insert_all_sorted, sorted_by_nil. Qed.

Lemma In_insert_all es y : In y (insert_all key es []) <-> In y es.
Proof.
  split; intro I.
  - now apply (Permutation_in _ (insert_all_perm es [])) in I.
  - now apply (Permutation_in _ (Permutation_sym (insert_all_perm es []))).
Qed.

Lemma filter_perm (f : A -> bool) l l' :
  Permutation l l' -> Permutation (filter f l) (filter f l').
Proof.
  induction 1 as [|x l l' P IH|x y l|l l' l'' P1 IH1 P2 IH2]; simpl.
  - constructor.
  - destruct (f x); auto.
  - destruct (f x), (f y); auto using perm_swap.
  - etransitivity; eassumption.
Qed.

(** Elements of an [equal_range] over a container built by inserts:
    the inserted elements with that key, up to order. *)
Lemma equal_range_insert_all k es :
  Permutation
    (range_elems (equal_range key k (insert_all key es []))
       (insert_all key es []))
    (filter (fun e => key_eqb (key e) k) es).
Proof.
  rewrite equal_range_filter by apply insert_all_nil_sorted.
  apply filter_perm. apply (insert_all_perm es []).
Qed.
End InsertAllFacts.

(** ** The engine in closed form *)

Section EngineFacts.
Context {ids : RecordIdentity}.
Open Scope engine_scope.

Lemma for_each_app {A} (l1 l2 : list A) (body : A -> M unit) s :
  for_each (l1 ++ l2) body s
  = (for_each l1 body ;; for_each l2 body) s.
Proof.
  revert s. induction l1 as [|x t IH]; intro s; simpl.
  - reflexivity.
  - unfold bind in *. destruct (body x s) as [[e|u] s']; auto.
Qed.

Lemma update_index_decision_closed id d s :
  update_index_decision id (decision_storage_record_ctor d) s
  = set_decision_index
      (decision_index_insert (decision_entry id) (decision_index s)) s.
Proof. reflexivity. Qed.

Lemma update_index_ballot_closed id b s :
  update_index_ballot id b s
  = set_ballot_by_contest_index
      (insert_all fst (ballot_entries (id, b)) (ballot_by_contest_index s)) s.
Proof.
  unfold update_index_ballot, ballot_entries; simpl.
  revert s. induction (ballot.contests b) as [|c cs IH]; intro s; simpl.
  - now destruct s.
  - rewrite IH. now destruct s.
Qed.

Lemma update_index_contest_closed id c s :
  update_index_contest id c s
  = set_contest_tags_index
      (insert_all contest_tags_index_record.by_tags (tag_entries (id, c))
         (contest_tags_index s))
      (set_contest_by_contestant_index
         (insert_all fst (contestant_entries (id, c))
            (contest_by_contestant_index s)) s).
Proof.
  unfold update_index_contest, tag_entries, contestant_entries; simpl.
  assert (E1 : forall l s,
    fold_left
      (fun s contestant =>
         set_contest_by_contestant_index
           (insert fst (contestant.name contestant, id)
              (contest_by_contestant_index s)) s) l s
    = set_contest_by_contestant_index
        (insert_all fst (map (fun c => (contestant.name c, id)) l)
           (contest_by_contestant_index s)) s).
  { induction l as [|x l IH]; intro s0; simpl.
    - now destruct s0.
    - rewrite IH. now destruct s0. }
  assert (E2 : forall l s,
    fold_left
      (fun s tag_pair =>
         set_contest_tags_index
           (insert contest_tags_index_record.by_tags
              (contest_tags_index_record.mk (fst tag_pair) (snd tag_pair) id)
              (contest_tags_index s)) s) l s
    = set_contest_tags_index
        (insert_all contest_tags_index_record.by_tags
           (map (fun tp => contest_tags_index_record.mk (fst tp) (snd tp) id) l)
           (contest_tags_index s)) s).
  { induction l as [|x l IH]; intro s0; simpl.
    - now destruct s0.
    - rewrite IH. now destruct s0. }
  rewrite E1, E2. now destruct s.
Qed.

Lemma for_each_index_decision tb : forall s,
  for_each tb (fun kv =>
    modify (update_index_decision (fst kv)
              (decision_storage_record_ctor (snd kv)))) s
  = (inr tt,
     set_decision_index
       (fold_left (fun idx id => decision_index_insert (decision_entry id) idx)
          (map fst tb) (decision_index s)) s).
Proof.
  induction tb as [|kv tb IH]; intro s; simpl.
  - now destruct s.
  - unfold bind, modify at 1. rewrite IH. now destruct s.
Qed.

Lemma for_each_index_ballot tb : forall s,
  for_each tb (fun kv => modify (update_index_ballot (fst kv) (snd kv))) s
  = (inr tt,
     set_ballot_by_contest_index
       (insert_all fst (flat_map ballot_entries tb)
          (ballot_by_contest_index s)) s).
Proof.
  induction tb as [|[k b] tb IH]; intro s; simpl.
  - now destruct s.
  - unfold bind, modify at 1. rewrite IH, update_index_ballot_closed.
    rewrite insert_all_app. now destruct s.
Qed.

Lemma for_each_index_contest tb : forall s,
  for_each tb (fun kv => modify (update_index_contest (fst kv) (snd kv))) s
  = (inr tt,
     set_contest_tags_index
       (insert_all contest_tags_index_record.by_tags (flat_map tag_entries tb)
          (contest_tags_index s))
       (set_contest_by_contestant_index
          (insert_all fst (flat_map contestant_entries tb)
             (contest_by_contestant_index s)) s)).
Proof.
  induction tb as [|[k c] tb IH]; intro s; simpl.
  - now destruct s.
  - unfold bind, modify at 1. rewrite IH, update_index_contest_closed.
    rewrite !insert_all_app. now destruct s.
Qed.

(** [open] on a fresh engine succeeds and rebuilds the indices from
    the three tables of the directory. *)
Lemma open_new data_dir fd fb fc :
  open data_dir (ballot_box_new fd fb fc)
  = (inr tt, session_state data_dir [] fd fb fc).
Proof.
  unfold open, ballot_box_new.
  unfold bind at 1; simpl. unfold bind at 1; simpl.
  unfold bind at 1; simpl. unfold bind at 1; simpl.
  unfold bind at 1. rewrite for_each_index_decision; simpl.
  unfold bind at 1; simpl. unfold bind at 1; simpl.
  unfold bind at 1. rewrite for_each_index_ballot; simpl.
  unfold bind at 1; simpl. unfold bind at 1; simpl.
  unfold bind at 1. rewrite for_each_index_contest; simpl.
  unfold session_state, decision_log, ballot_log, contest_log; simpl.
  now rewrite !app_nil_r.
Qed.
End EngineFacts.

(** ** The durable table *)

Section TableFacts.
Context {V : Type}.
Implicit Types (tb : level_map.table V) (k : digest_type) (v : V).

Lemma store_files_at p kvs : forall (f : path -> level_map.table V),
    store_files p kvs f p = table_store_all kvs (f p).
Proof.
  unfold store_files, table_store_all.
  induction kvs as [|kv kvs IH]; intro f; simpl; trivial.
  rewrite IH. unfold level_map.write. now rewrite String.eqb_refl.
Qed.

Lemma store_files_snoc p kvs kv (f : path -> level_map.table V) :
  store_files p (kvs ++ [kv]) f
  = level_map.write p
      (level_map.table_store (fst kv) (snd kv) (store_files p kvs f p))
      (store_files p kvs f).
Proof. unfold store_files. now rewrite fold_left_app. Qed.

Lemma table_fetch_store k v tb :
  level_map.table_fetch k (level_map.table_store k v tb) = Some v.
Proof.
  induction tb as [|[k' v'] tb IH]; simpl.
  - now rewrite Z.eqb_refl.
  - destruct (Z.ltb_spec k k'); simpl.
    + now rewrite Z.eqb_refl.
    + destruct (Z.eqb_spec k k') as [->|N]; simpl.
      * now rewrite Z.eqb_refl.
      * destruct (Z.eqb_spec k k'); [contradiction|]. exact IH.
Qed.

Lemma table_store_twice k v tb :
  level_map.table_store k v (level_map.table_store k v tb)
  = level_map.table_store k v tb.
Proof.
  induction tb as [|[k' v'] tb IH]; simpl.
  - now rewrite Z.ltb_irrefl, Z.eqb_refl.
  - destruct (Z.ltb_spec k k'); simpl.
    + now rewrite Z.ltb_irrefl, Z.eqb_refl.
    + destruct (Z.eqb_spec k k') as [->|N]; simpl.
      * now rewrite Z.ltb_irrefl, Z.eqb_refl.
      * destruct (Z.ltb_spec k k'); [lia|].
        destruct (Z.eqb_spec k k'); [contradiction|]. now rewrite IH.
Qed.

Lemma table_store_keys k v tb x :
  In x (map fst (level_map.table_store k v tb)) <-> x = k \/ In x (map fst tb).
Proof.
  induction tb as [|[k' v'] tb IH]; simpl.
  - intuition.
  - destruct (Z.ltb_spec k k'); simpl; [intuition|].
    destruct (Z.eqb_spec k k') as [->|N]; simpl; [intuition|].
    rewrite IH. intuition.
Qed.

Lemma table_store_all_keys kvs : forall tb x,
    In x (map fst (table_store_all kvs tb))
    <-> In x (map fst tb) \/ In x (map fst kvs).
Proof.
  unfold table_store_all.
  induction kvs as [|kv kvs IH]; intros tb x; simpl; [intuition|].
  rewrite IH, table_store_keys. intuition.
Qed.

Lemma table_sorted_inv a tb :
  table_sorted (a :: tb) ->
  table_sorted tb /\ forall b, In b tb -> fst a < fst b.
Proof.
  intro S. apply StronglySorted_inv in S as [S F]. split; trivial.
  now apply Forall_forall.
Qed.

Lemma In_table_store k v tb x :
  table_sorted tb ->
  In x (level_map.table_store k v tb)
  <-> x = (k, v) \/ (fst x <> k /\ In x tb).
Proof.
  induction tb as [|[k' v'] tb IH]; simpl; intro S.
  - intuition.
  - apply table_sorted_inv in S as [S1 S2].
    destruct (Z.ltb_spec k k'); simpl.
    + split; [|intuition].
      intros [E|[E|I]]; auto; right.
      * subst x; simpl; split; auto; lia.
      * specialize (S2 x I). simpl in S2. split; auto; lia.
    + destruct (Z.eqb_spec k k') as [->|N]; simpl.
      * split.
        -- intros [E|I]; auto. right. specialize (S2 x I). simpl in S2.
           split; auto; lia.
        -- intros [E|[N [E|I]]]; auto. subst x. now simpl in N.
      * rewrite (IH S1). split.
        -- intros [E|[E|[N' I]]]; auto. subst x. right. simpl. auto.
        -- intros [E|[N' [E|I]]]; auto.
Qed.

Lemma table_store_sorted k v tb :
  table_sorted tb -> table_sorted (level_map.table_store k v tb).
Proof.
  induction tb as [|[k' v'] tb IH]; simpl; intro S.
  - repeat constructor.
  - pose proof (table_sorted_inv _ _ S) as [S1 S2].
    destruct (Z.ltb_spec k k'); simpl.
    + constructor; trivial. apply Forall_forall. intros b [<-|I]; simpl; trivial.
      specialize (S2 b I). simpl in S2. lia.
    + destruct (Z.eqb_spec k k') as [->|N]; simpl.
      * constructor; trivial. now apply Forall_forall.
      * constructor; [now apply IH|]. apply Forall_forall. intros b I.
        apply (In_table_store k v tb b S1) in I as [->|[_ I]]; simpl.
        -- lia.
        -- apply (S2 b I).
Qed.

Lemma table_store_all_sorted kvs : forall tb,
    table_sorted tb -> table_sorted (table_store_all kvs tb).
Proof.
  unfold table_store_all.
  induction kvs as [|kv kvs IH]; intros tb S; simpl; trivial.
  apply IH. now apply table_store_sorted.
Qed.

(** Removing every key met by an iteration over the table empties
    it. *)
Lemma table_remove_all (recs : level_map.table V) : forall tb,
    fold_left (fun tb kv => level_map.table_remove (fst kv) tb) recs tb
    = filter (fun kv => negb (existsb (fun r => fst kv =? fst r) recs)) tb.
Proof.
  induction recs as [|r recs IH]; intro tb; simpl.
  - symmetry. apply filter_true.
  - rewrite IH. unfold level_map.table_remove.
    induction tb as [|kv tb IHtb]; simpl; trivial.
    destruct (fst kv =? fst r); simpl; trivial.
    destruct (existsb (fun r0 => fst kv =? fst r0) recs); simpl; trivial.
    now f_equal.
Qed.

Lemma remove_files_at p recs : forall (f : path -> level_map.table V),
    remove_files p recs f p
    = fold_left (fun tb kv => level_map.table_remove (fst kv) tb) recs (f p).
Proof.
  unfold remove_files.
  induction recs as [|kv recs IH]; intro f; simpl; trivial.
  rewrite IH. unfold level_map.write. now rewrite String.eqb_refl.
Qed.

Lemma table_remove_self tb :
  fold_left (fun tb kv => level_map.table_remove (fst kv) tb) tb tb = [].
Proof.
  rewrite table_remove_all. apply filter_none. intros kv I.
  apply negb_false_iff, existsb_exists. exists kv. split; trivial.
  apply Z.eqb_refl.
Qed.
End TableFacts.

(** ** Sessions *)

Section SessionFacts.
Context {ids : RecordIdentity}.
Open Scope engine_scope.

Lemma decisions_of_app ops1 ops2 :
  decisions_of (ops1 ++ ops2) = decisions_of ops1 ++ decisions_of ops2.
Proof. apply flat_map_app. Qed.
Lemma ballots_of_app ops1 ops2 :
  ballots_of (ops1 ++ ops2) = ballots_of ops1 ++ ballots_of ops2.
Proof. apply flat_map_app. Qed.
Lemma contests_of_app ops1 ops2 :
  contests_of (ops1 ++ ops2) = contests_of ops1 ++ contests_of ops2.
Proof. apply flat_map_app. Qed.

Lemma In_decisions_of d ops : In d (decisions_of ops) <-> In (StoreDecision d) ops.
Proof.
  unfold decisions_of. rewrite in_flat_map. split.
  - intros (op & I & J). destruct op; simpl in J; try tauto.
    destruct J as [<-|[]]; trivial.
  - intro I. exists (StoreDecision d). simpl; auto.
Qed.
Lemma In_ballots_of b ops : In b (ballots_of ops) <-> In (StoreBallot b) ops.
Proof.
  unfold ballots_of. rewrite in_flat_map. split.
  - intros (op & I & J). destruct op; simpl in J; try tauto.
    destruct J as [<-|[]]; trivial.
  - intro I. exists (StoreBallot b). simpl; auto.
Qed.
Lemma In_contests_of c ops : In c (contests_of ops) <-> In (StoreContest c) ops.
Proof.
  unfold contests_of. rewrite in_flat_map. split.
  - intros (op & I & J). destruct op; simpl in J; try tauto.
    destruct J as [<-|[]]; trivial.
  - intro I. exists (StoreContest c). simpl; auto.
Qed.

Lemma decision_index_of_snoc ks k (idx : list decision_index_record.t) :
  decision_index_of (ks ++ [k]) idx
  = decision_index_insert (decision_entry k) (decision_index_of ks idx).
Proof. unfold decision_index_of. now rewrite fold_left_app. Qed.

(** One more store call extends the session. *)
Lemma run_store_op_session_state data_dir ops op fd fb fc :
  run_store_op op (session_state data_dir ops fd fb fc)
  = (inr tt, session_state data_dir (ops ++ [op]) fd fb fc).
Proof.
  destruct op as [d|b|c]; simpl;
    unfold ballot_box_store_new_decision, store_record_decision,
      ballot_box_store_ballot, store_record_ballot,
      ballot_box_store_contest, store_record_contest;
    unfold bind, on_db, modify; simpl; f_equal.
  - rewrite update_index_decision_closed.
    unfold session_state, decision_log, ballot_log, contest_log.
    rewrite decisions_of_app, ballots_of_app, contests_of_app; simpl.
    rewrite !app_nil_r, !map_app; simpl.
    now rewrite app_assoc, decision_index_of_snoc, store_files_snoc.
  - rewrite update_index_ballot_closed.
    unfold session_state, decision_log, ballot_log, contest_log.
    rewrite decisions_of_app, ballots_of_app, contests_of_app; simpl.
    rewrite !app_nil_r, !map_app; simpl.
    rewrite app_assoc, store_files_snoc, !flat_map_app, !insert_all_app; simpl.
    now rewrite ?app_nil_r.
  - rewrite update_index_contest_closed.
    unfold session_state, decision_log, ballot_log, contest_log.
    rewrite decisions_of_app, ballots_of_app, contests_of_app; simpl.
    rewrite !app_nil_r, !map_app; simpl.
    rewrite app_assoc, store_files_snoc, !flat_map_app, !insert_all_app; simpl.
    now rewrite ?app_nil_r.
Qed.

Lemma for_each_session_state data_dir ops' : forall ops fd fb fc,
  for_each ops' run_store_op (session_state data_dir ops fd fb fc)
  = (inr tt, session_state data_dir (ops ++ ops') fd fb fc).
Proof.
  induction ops' as [|op ops' IH]; intros ops fd fb fc.
  - now rewrite app_nil_r.
  - simpl. unfold bind. rewrite run_store_op_session_state, IH.
    now rewrite <- app_assoc.
Qed.

(** A session on a fresh engine succeeds and leaves [session_state]. *)
Lemma session_ok data_dir ops fd fb fc :
  session data_dir ops (ballot_box_new fd fb fc)
  = (inr tt, session_state data_dir ops fd fb fc).
Proof.
  unfold session, ballot_box_open, bind. rewrite open_new.
  apply for_each_session_state.
Qed.

(** The wiping loop of [clear] on an open table. *)
Lemma for_each_remove {V}
  (get : ballot_box_impl -> level_map.t V)
  (set : level_map.t V -> ballot_box_impl -> ballot_box_impl)
  (get_set : forall m s, get (set m s) = m)
  (set_set : forall m m' s, set m (set m' s) = set m s)
  (set_get : forall s, set (get s) s = s)
  p (recs : level_map.table V) : forall s f,
    get s = level_map.mk (Some p) f ->
    for_each recs (fun kv => on_db get set (level_map.remove (fst kv))) s
    = (inr tt, set (level_map.mk (Some p) (remove_files p recs f)) s).
Proof.
  induction recs as [|kv recs IH]; intros s f E; simpl.
  - unfold ret. now rewrite <- E, set_get.
  - unfold bind, on_db at 1. rewrite E. unfold level_map.remove at 1; simpl.
    rewrite (IH _ (level_map.write p
                     (level_map.table_remove (fst kv) (f p)) f))
      by apply get_set.
    now rewrite set_set.
Qed.

(** [clear] on a session state succeeds: the three tables of the
    directory are emptied, the indices are emptied, the engine stays
    open. *)
Lemma clear_session_state data_dir ops fd fb fc :
  let s := session_state data_dir ops fd fb fc in
  let wiped {V} (m : level_map.t V) p :=
    level_map.mk (Some p)
      (remove_files p (level_map.files m p) (level_map.files m)) in
  clear s
  = (inr tt,
     mk_impl
       (wiped (decision_db s) (path_append data_dir "decision_db")) [] []
       (wiped (ballot_db s) (path_append data_dir "ballot_db")) []
       (wiped (contest_db s) (path_append data_dir "contest_db")) [] []
       true).
Proof.
  intros s wiped. subst s wiped. unfold clear.
  unfold bind at 1; simpl. unfold bind at 1. unfold bind at 1; simpl.
  unfold bind at 1.
  rewrite (for_each_remove decision_db set_decision_db)
    with (p := path_append data_dir "decision_db")
         (f := store_files (path_append data_dir "decision_db")
                 (map (fun d => (digest d, signed_voter_decision.default))
                    (decisions_of ops)) fd);
    try (intros; now destruct s); trivial.
  unfold bind at 1; simpl. unfold bind at 1.
  rewrite (for_each_remove ballot_db set_ballot_db)
    with (p := path_append data_dir "ballot_db")
         (f := store_files (path_append data_dir "ballot_db")
                 (map (fun b => (ballot_id b, b)) (ballots_of ops)) fb);
    try (intros; now destruct s); trivial.
  unfold bind at 1; simpl.
  rewrite (for_each_remove contest_db set_contest_db)
    with (p := path_append data_dir "contest_db")
         (f := store_files (path_append data_dir "contest_db")
                 (map (fun c => (contest_id c, c)) (contests_of ops)) fc);
    try (intros; now destruct s); trivial.
Qed.

Lemma clear_closed s :
  databases_open s = false ->
  clear s
  = (inr tt,
     mk_impl (decision_db s) [] [] (ballot_db s) [] (contest_db s) [] []
       false).
Proof.
  intro E. unfold clear, bind, gets. rewrite E. simpl.
  destruct s; simpl in *. now subst.
Qed.

(** The engine's own [close] succeeds on a session state and leaves
    a fresh engine over the files as they are. *)
Lemma close_session_state data_dir ops fd fb fc :
  close (session_state data_dir ops fd fb fc)
  = (inr tt,
     ballot_box_new
       (level_map.files (decision_db (session_state data_dir ops fd fb fc)))
       (level_map.files (ballot_db (session_state data_dir ops fd fb fc)))
       (level_map.files (contest_db (session_state data_dir ops fd fb fc)))).
Proof. reflexivity. Qed.
End SessionFacts.

(** ** The decision index *)

Section DecisionIndexFacts.
Context {ids : RecordIdentity}.
Import decision_index_record.

Lemma existsb_id r (idx : list decision_index_record.t) :
  existsb (fun r' => id r' =? id r) idx = true <-> In (id r) (map id idx).
Proof.
  rewrite existsb_exists, in_map_iff. split.
  - intros (r' & I & E). apply Z.eqb_eq in E. eauto.
  - intros (r' & E & I). exists r'. split; trivial. now apply Z.eqb_eq.
Qed.

Lemma decision_index_insert_twice r idx :
  decision_index_insert r (decision_index_insert r idx)
  = decision_index_insert r idx.
Proof.
  unfold decision_index_insert at 2.
  destruct (existsb (fun r' => id r' =? id r) idx) eqn:E.
  - unfold decision_index_insert. now rewrite E.
  - unfold decision_index_insert.
    rewrite existsb_app; simpl. rewrite Z.eqb_refl; simpl.
    now rewrite orb_true_r, E.
Qed.

Lemma decision_index_insert_NoDup r idx :
  NoDup (map id idx) -> NoDup (map id (decision_index_insert r idx)).
Proof.
  intro N. unfold decision_index_insert.
  destruct (existsb (fun r' => id r' =? id r) idx) eqn:E; trivial.
  rewrite map_app; simpl.
  apply (Permutation_NoDup (Permutation_cons_append (map id idx) (id r))).
  constructor; trivial. intro I. apply existsb_id in I. congruence.
Qed.

Lemma In_decision_index_insert r idx x :
  In x (decision_index_insert r idx)
  <-> In x idx \/ (x = r /\ ~ In (id r) (map id idx)).
Proof.
  unfold decision_index_insert.
  destruct (existsb (fun r' => id r' =? id r) idx) eqn:E.
  - apply existsb_id in E. tauto.
  - rewrite in_app_iff; simpl.
    assert (~ In (id r) (map id idx)).
    { intro I. apply existsb_id in I. congruence. }
    intuition.
Qed.

Lemma decision_index_of_NoDup keys : forall idx,
    NoDup (map id idx) -> NoDup (map id (decision_index_of keys idx)).
Proof.
  induction keys as [|k keys IH]; intros idx N; simpl; trivial.
  apply IH. now apply decision_index_insert_NoDup.
Qed.

(** The decision index holds one record per key of the log. *)
Lemma In_decision_index_of keys r :
  In r (decision_index_of keys []) <-> exists k, In k keys /\ r = decision_entry k.
Proof.
  assert (G : forall keys idx,
    (forall r', In r' idx -> r' = decision_entry (id r')) ->
    In r (decision_index_of keys idx)
    <-> In r idx \/ exists k, In k keys /\ r = decision_entry k).
  { clear keys. induction keys as [|k keys IH]; intros idx W; simpl.
    - split; [auto|]. intros [I|(k & [] & _)]; trivial.
    - rewrite IH.
      + rewrite In_decision_index_insert. split.
        * intros [[I|[-> _]]|(k' & I & ->)]; eauto.
        * intros [I|(k' & [<-|I] & ->)]; eauto.
          destruct (in_dec Z.eq_dec (id (decision_entry k)) (map id idx))
            as [J|J]; auto.
          apply in_map_iff in J as (r' & E & J). left. left.
          rewrite (W r' J), E in J. exact J.
      + intros r' I. apply In_decision_index_insert in I as [I|[-> _]]; auto. }
  rewrite (G keys []); [|intros r' []]. simpl. tauto.
Qed.

Lemma NoDup_map_filter {A B} (f : A -> B) (p : A -> bool) l :
  NoDup (map f l) -> NoDup (map f (filter p l)).
Proof.
  induction l as [|x l IH]; simpl; intro N; trivial.
  apply NoDup_cons_iff in N as [N1 N2].
  destruct (p x); simpl; auto.
  constructor; auto. intro I. apply N1.
  apply in_map_iff in I as (y & E & I). apply filter_In in I as [I _].
  apply in_map_iff. eauto.
Qed.

Lemma get_decisions_by_key_NoDup {Key} (Index : decision_index_record.t -> Key)
  eqb key data_dir ops fd fb fc :
  NoDup (get_decisions_by_key Index eqb key
           (session_state data_dir ops fd fb fc)).
Proof.
  unfold get_decisions_by_key. apply NoDup_map_filter.
  cbn [decision_index session_state].
  apply (decision_index_of_NoDup _ []). constructor.
Qed.

Lemma In_get_decisions_by_key {Key} (Index : decision_index_record.t -> Key)
  eqb key s x :
  In x (get_decisions_by_key Index eqb key s)
  <-> exists r, In r (decision_index s) /\ eqb (Index r) key = true /\ id r = x.
Proof.
  unfold get_decisions_by_key. rewrite in_map_iff. split.
  - intros (r & E & I). apply filter_In in I as [I F]. eauto.
  - intros (r & I & F & E). exists r. split; trivial.
    apply filter_In. auto.
Qed.
End DecisionIndexFacts.

(** ** The write-in index *)

Section WriteInIndexFacts.

(** On its own [get_all_write_ins] does what it is meant to: over any
    ordered write-in index it returns, and lists every name of the
    index once, in strictly ascending order. *)
Lemma get_all_write_ins_scan s :
  sorted_by fst (write_in_index s) ->
  exists names,
    get_all_write_ins s = Some names
    /\ StronglySorted (fun a b => String.ltb a b = true) names
    /\ forall n, In n names <-> exists id, In (n, id) (write_in_index s).
Proof.
  intro S. unfold get_all_write_ins.
  destruct (distinct_scan_spec fst fst (write_in_index s)
              (List.length (write_in_index s)) S (le_n _))
    with (fuel := List.length (write_in_index s)) (itr := 0%nat)
    as (heads & R & Ss & Hin & Hall); try lia.
  - intros i j a b [Li Lj] Ea Eb.
    assert (nth_error (write_in_index s) j <> None) as Nj by congruence.
    apply nth_error_Some in Nj. lia.
  - exists (map fst heads). split; [exact R|]. split.
    + clear R Hin Hall. induction Ss as [|x t St IH F]; simpl; constructor.
      * exact IH.
      * apply Forall_forall. intros n I. apply in_map_iff in I as (h & <- & I).
        rewrite Forall_forall in F. exact (F h I).
    + intro n. split.
      * intro I. apply in_map_iff in I as ([n' id] & <- & I).
        destruct (Hin _ I) as (i & _ & Ei).
        exists id. eapply nth_error_In; eassumption.
      * intros (id & I). apply In_nth_error in I as (i & Ei).
        destruct (Hall i (n, id)) as (h & I & Eh); trivial.
        { split; [lia|]. apply nth_error_Some. congruence. }
        apply in_map_iff. exists h. auto.
Qed.
End WriteInIndexFacts.

(** ** The tag index *)

Section TagIndexFacts.
Import contest_tags_index_record.

Lemma string_key_eqb (a b : string) : key_eqb a b = String.eqb a b.
Proof.
  destruct (String.eqb_spec a b) as [->|N].
  - now apply key_eqb_eq.
  - destruct (key_eqb a b) eqn:E; trivial.
    apply key_eqb_eq in E. contradiction.
Qed.

Lemma by_tags_key_eqb e k v :
  key_eqb (by_tags e) (k, v)
  = String.eqb (key e) k && String.eqb (value e) v.
Proof.
  destruct (String.eqb_spec (key e) k) as [E1|N1];
    destruct (String.eqb_spec (value e) v) as [E2|N2]; simpl.
  - apply key_eqb_eq. unfold by_tags. now subst.
  - destruct (key_eqb (by_tags e) (k, v)) eqn:E; trivial.
    apply key_eqb_eq in E. unfold by_tags in E. congruence.
  - destruct (key_eqb (by_tags e) (k, v)) eqn:E; trivial.
    apply key_eqb_eq in E. unfold by_tags in E. congruence.
  - destruct (key_eqb (by_tags e) (k, v)) eqn:E; trivial.
    apply key_eqb_eq in E. unfold by_tags in E. congruence.
Qed.

(** A container ordered by (key, value) is ordered by key. *)
Lemma sorted_by_tags_key l : sorted_by by_tags l -> sorted_by by_tags_key l.
Proof.
  unfold sorted_by. induction 1 as [|x t S IH F]; constructor; trivial.
  eapply Forall_impl; [|exact F]. intros y. cbv beta.
  rewrite key_lt_pair. unfold pair_lt, by_tags, by_tags_key; simpl.
  intro E. now apply orb_false_iff in E as [E _].
Qed.

Lemma values_ascending k heads :
  StronglySorted (fun a b => key_lt (by_tags a) (by_tags b) = true) heads ->
  (forall h, In h heads -> key h = k) ->
  StronglySorted (fun a b => String.ltb a b = true) (map value heads).
Proof.
  induction 1 as [|x t S IH F]; intro Hk; simpl; constructor.
  - apply IH. intros h I. apply Hk. now right.
  - apply Forall_forall. intros v I. apply in_map_iff in I as (h & <- & I).
    rewrite Forall_forall in F. specialize (F h I).
    rewrite key_lt_pair in F. unfold pair_lt, by_tags in F; simpl in F.
    rewrite (Hk x (or_introl eq_refl)), (Hk h (or_intror I)) in F.
    now rewrite key_lt_irrefl in F.
Qed.

(** The scan of [get_values_by_tag] over any container in
    (key, value) order: it returns, and lists in strictly ascending
    order the values met under the key. *)
Lemma values_scan idx k :
  sorted_by by_tags idx ->
  exists values,
    distinct_scan by_tags value idx (List.length idx)
      (lower_bound by_tags_key k idx) (upper_bound by_tags_key k idx)
    = Some values
    /\ StronglySorted (fun a b => String.ltb a b = true) values
    /\ forall v, In v values <-> exists e, In e idx /\ key e = k /\ value e = v.
Proof.
  intro S. pose proof (sorted_by_tags_key idx S) as S1.
  destruct (distinct_scan_spec by_tags value idx
              (upper_bound by_tags_key k idx) S
              (upper_bound_le_length by_tags_key k idx))
    with (fuel := List.length idx) (itr := lower_bound by_tags_key k idx)
    as (heads & R & Ss & Hin & Hall).
  - intros i j a b [Li Lj] Ea Eb.
    pose proof (upper_bound_before by_tags_key k idx i a Li Ea) as Ba.
    pose proof (upper_bound_after by_tags_key k idx S1 j b Lj Eb) as Bb.
    rewrite key_lt_pair. unfold pair_lt, by_tags; simpl.
    unfold by_tags_key in Ba, Bb.
    now rewrite (key_le_lt_trans _ _ _ Ba Bb).
  - pose proof (upper_bound_le_length by_tags_key k idx). lia.
  - apply lower_le_upper.
  - assert (Hk : forall h, In h heads -> key h = k).
    { intros h I. destruct (Hin h I) as (i & [Li Lj] & Ei).
      apply key_lt_connex.
      - apply (lower_bound_after by_tags_key k idx S1 i h Li Ei).
      - apply (upper_bound_before by_tags_key k idx i h Lj Ei). }
    exists (map value heads). split; [exact R|]. split.
    + now apply values_ascending with (k := k).
    + intro v. split.
      * intro I. apply in_map_iff in I as (h & <- & I).
        exists h. repeat split; auto.
        destruct (Hin h I) as (i & _ & Ei). eapply nth_error_In; eassumption.
      * intros (e & I & Ek & Ev).
        apply In_nth_error in I as (i & Ei).
        assert (Li : (lower_bound by_tags_key k idx <= i)%nat).
        { destruct (Nat.le_gt_cases (lower_bound by_tags_key k idx) i) as [|G];
            trivial.
          pose proof (lower_bound_before by_tags_key k idx i e G Ei) as B.
          unfold by_tags_key in B. rewrite Ek, key_lt_irrefl in B.
          discriminate. }
        assert (Lj : (i < upper_bound by_tags_key k idx)%nat).
        { destruct (Nat.lt_ge_cases i (upper_bound by_tags_key k idx)) as [|G];
            trivial.
          pose proof (upper_bound_after by_tags_key k idx S1 i e G Ei) as B.
          unfold by_tags_key in B. rewrite Ek, key_lt_irrefl in B.
          discriminate. }
        destruct (Hall i e (conj Li Lj) Ei) as (h & I & Eh).
        apply in_map_iff. exists h. split; trivial.
        unfold by_tags in Eh. congruence.
Qed.

Lemma strictly_ascending_NoDup (l : list string) :
  StronglySorted (fun a b => String.ltb a b = true) l -> NoDup l.
Proof.
  induction 1 as [|x t S IH F]; constructor; trivial.
  intro I. rewrite Forall_forall in F. specialize (F x I).
  pose proof (key_lt_irrefl x) as R. unfold key_lt, string_KeyLt in R.
  congruence.
Qed.

(** The tag entries of a log: one per stored (key, value) pair. *)
Lemma In_tag_entries_log (log : list (Z * contest.t)) e :
  In e (flat_map tag_entries log)
  <-> exists kc, In kc log /\ In (key e, value e) (contest.tags (snd kc))
                 /\ contest_id e = fst kc.
Proof.
  rewrite in_flat_map. unfold tag_entries. split.
  - intros (kc & I & J). apply in_map_iff in J as ([tk tv] & <- & J).
    exists kc. simpl. auto.
  - intros (kc & I & J & E). exists kc. split; trivial.
    apply in_map_iff. exists (key e, value e). split; trivial.
    simpl. rewrite <- E. now destruct e.
Qed.
End TagIndexFacts.

(** ** Queries over the multimaps of a session state *)

Section MultimapQueryFacts.
Context {ids : RecordIdentity}.

Lemma Z_key_eqb (a b : Z) : key_eqb a b = (a =? b).
Proof.
  destruct (Z.eqb_spec a b) as [->|N].
  - now apply key_eqb_eq.
  - destruct (key_eqb a b) eqn:E; trivial.
    apply key_eqb_eq in E. contradiction.
Qed.

Lemma get_ballots_by_contest_perm data_dir ops fd fb fc c :
  Permutation
    (get_ballots_by_contest c (session_state data_dir ops fd fb fc))
    (map snd
       (filter (fun e => fst e =? c)
          (flat_map ballot_entries
             (ballot_log (fb (path_append data_dir "ballot_db")) ops)))).
Proof.
  unfold get_ballots_by_contest.
  cbn [ballot_by_contest_index session_state].
  apply Permutation_map. rewrite equal_range_insert_all.
  erewrite filter_ext by (intro; apply Z_key_eqb). reflexivity.
Qed.

Lemma get_contests_by_contestant_perm data_dir ops fd fb fc n :
  Permutation
    (get_contests_by_contestant n (session_state data_dir ops fd fb fc))
    (map snd
       (filter (fun e => String.eqb (fst e) n)
          (flat_map contestant_entries
             (contest_log (fc (path_append data_dir "contest_db")) ops)))).
Proof.
  unfold get_contests_by_contestant.
  cbn [contest_by_contestant_index session_state].
  apply Permutation_map. rewrite equal_range_insert_all.
  erewrite filter_ext by (intro; apply string_key_eqb). reflexivity.
Qed.

(** A ballot contributes its identifier to the look-up by a contest
    once per occurrence of the contest in its list. *)
Lemma count_ballot_entries x b c :
  count_occ Z.eq_dec
    (map snd (filter (fun e => fst e =? c) (ballot_entries (x, b)))) x
  = count_occ Z.eq_dec (ballot.contests b) c.
Proof.
  unfold ballot_entries; simpl.
  induction (ballot.contests b) as [|c' cs IH]; simpl; trivial.
  destruct (Z.eqb_spec c' c) as [->|N]; simpl.
  - destruct (Z.eq_dec x x); [|contradiction].
    destruct (Z.eq_dec c c); [|contradiction]. now rewrite IH.
  - destruct (Z.eq_dec c' c); [contradiction|]. exact IH.
Qed.

(** [get_values_by_tag] on a session state. *)
Lemma get_values_by_tag_session data_dir ops fd fb fc k :
  let stored := contest_log (fc (path_append data_dir "contest_db")) ops in
  exists values,
    get_values_by_tag k (session_state data_dir ops fd fb fc) = Some values
    /\ StronglySorted (fun a b => String.ltb a b = true) values
    /\ NoDup values
    /\ forall v, In v values
                 <-> exists kc, In kc stored /\ In (k, v) (contest.tags (snd kc)).
Proof.
  intros stored.
  unfold get_values_by_tag. cbn [contest_tags_index session_state].
  fold stored.
  destruct (values_scan
              (insert_all contest_tags_index_record.by_tags
                 (flat_map tag_entries stored) []) k)
    as (values & R & S & M).
  { apply insert_all_nil_sorted. }
  exists values. split; [exact R|]. split; [exact S|]. split.
  { now apply strictly_ascending_NoDup. }
  intro v. rewrite M. split.
  - intros (e & I & Ek & Ev). apply In_insert_all in I.
    apply In_tag_entries_log in I as (kc & I & J & _).
    exists kc. split; trivial. now rewrite <- Ek, <- Ev.
  - intros (kc & I & J).
    exists (contest_tags_index_record.mk k v (fst kc)). repeat split.
    apply In_insert_all, In_tag_entries_log. exists kc. auto.
Qed.


(** [get_contests_by_tags] on a session state: one identifier per
    matching tag entry of the log, up to order. *)
Lemma get_contests_by_tags_perm data_dir ops fd fb fc k v :
  Permutation
    (get_contests_by_tags k v (session_state data_dir ops fd fb fc))
    (map contest_tags_index_record.contest_id
       (filter
          (fun e =>
             String.eqb (contest_tags_index_record.key e) k
             && (String.eqb v ""
                 || String.eqb (contest_tags_index_record.value e) v))
          (flat_map tag_entries
             (contest_log (fc (path_append data_dir "contest_db")) ops)))).
Proof.
  unfold get_contests_by_tags. cbn [contest_tags_index session_state].
  apply Permutation_map.
  destruct (String.eqb v "") eqn:E.
  - rewrite equal_range_filter
      by apply sorted_by_tags_key, insert_all_nil_sorted.
    erewrite filter_ext
      by (intro; rewrite string_key_eqb; simpl; now rewrite andb_true_r).
    apply filter_perm, (insert_all_perm _ _ []).
  - rewrite equal_range_filter by apply insert_all_nil_sorted.
    erewrite filter_ext by (intro; apply by_tags_key_eqb).
    apply filter_perm, (insert_all_perm _ _ []).
Qed.

Lemma table_store_all_twice {V} (kvs : level_map.table V) kv tb :
  table_store_all (kvs ++ [kv; kv]) tb = table_store_all (kvs ++ [kv]) tb.
Proof.
  unfold table_store_all. rewrite !fold_left_app. simpl.
  apply table_store_twice.
Qed.
End MultimapQueryFacts.

(** ** Rebuilding *)

Section RebuildFacts.
Context {ids : RecordIdentity}.

Lemma In_table_store_functional {V} k (v : V) tb x :
  (forall v', In (k, v') tb -> v' = v) ->
  In x (level_map.table_store k v tb) <-> x = (k, v) \/ In x tb.
Proof.
  induction tb as [|[k' v'] tb IH]; simpl; intro F.
  - intuition.
  - destruct (Z.ltb_spec k k'); simpl; [intuition|].
    destruct (Z.eqb_spec k k') as [->|N]; simpl.
    + rewrite (F v' (or_introl eq_refl)). intuition.
    + rewrite IH by (intros v0 I; apply F; now right). intuition.
Qed.

(** With identifiers that name one record each, a table holds after
    a run of stores what it held before together with what was
    stored. *)
Lemma In_table_store_all {V} (kvs : level_map.table V) : forall tb,
    functional_log (tb ++ kvs) ->
    forall x, In x (table_store_all kvs tb) <-> In x (tb ++ kvs).
Proof.
  unfold table_store_all.
  induction kvs as [|[k v] kvs IH]; intros tb F x; simpl.
  - now rewrite app_nil_r.
  - assert (Fk : forall v', In (k, v') tb -> v' = v).
    { intros v' I. symmetry.
      apply (F (k, v) (k, v')); trivial; apply in_app_iff; simpl; auto. }
    rewrite IH.
    + rewrite !in_app_iff, In_table_store_functional by exact Fk.
      simpl. intuition.
    + intros kv kv' I I' E. apply F; trivial.
      * apply in_app_iff in I as [I|I]; apply in_app_iff; simpl; auto.
        apply In_table_store_functional in I as [->|I]; auto.
      * apply in_app_iff in I' as [I'|I']; apply in_app_iff; simpl; auto.
        apply In_table_store_functional in I' as [->|I']; auto.
Qed.

Lemma In_get_ballots_by_contest data_dir ops fd fb fc c x :
  In x (get_ballots_by_contest c (session_state data_dir ops fd fb fc))
  <-> exists kv,
      In kv (ballot_log (fb (path_append data_dir "ballot_db")) ops)
      /\ fst kv = x /\ In c (ballot.contests (snd kv)).
Proof.
  pose proof (get_ballots_by_contest_perm data_dir ops fd fb fc c) as P.
  split.
  - intro I. apply (Permutation_in _ P) in I.
    apply in_map_iff in I as ([c' x'] & E & I). simpl in E. subst x'.
    apply filter_In in I as [I F]. simpl in F. apply Z.eqb_eq in F. subst c'.
    apply in_flat_map in I as (kv & I & J). exists kv. split; trivial.
    unfold ballot_entries in J. apply in_map_iff in J as (c' & E & J).
    inversion E; subst. auto.
  - intros (kv & I & E & J). apply (Permutation_in _ (Permutation_sym P)).
    apply in_map_iff. exists (c, x). split; trivial.
    apply filter_In. split; [|simpl; apply Z.eqb_refl].
    apply in_flat_map. exists kv. split; trivial.
    unfold ballot_entries. apply in_map_iff. exists c. subst x. auto.
Qed.

Lemma In_get_contests_by_contestant data_dir ops fd fb fc n x :
  In x (get_contests_by_contestant n (session_state data_dir ops fd fb fc))
  <-> exists kv,
      In kv (contest_log (fc (path_append data_dir "contest_db")) ops)
      /\ fst kv = x
      /\ In n (map contestant.name (contest.contestants (snd kv))).
Proof.
  pose proof (get_contests_by_contestant_perm data_dir ops fd fb fc n) as P.
  split.
  - intro I. apply (Permutation_in _ P) in I.
    apply in_map_iff in I as ([n' x'] & E & I). simpl in E. subst x'.
    apply filter_In in I as [I F]. simpl in F. apply String.eqb_eq in F.
    subst n'.
    apply in_flat_map in I as (kv & I & J). exists kv. split; trivial.
    unfold contestant_entries in J. apply in_map_iff in J as (ct & E & J).
    inversion E; subst. split; trivial. apply in_map_iff. eauto.
  - intros (kv & I & E & J). apply (Permutation_in _ (Permutation_sym P)).
    apply in_map_iff. exists (n, x). split; trivial.
    apply filter_In. split; [|simpl; apply String.eqb_refl].
    apply in_flat_map. exists kv. split; trivial.
    unfold contestant_entries. apply in_map_iff in J as (ct & E' & J).
    apply in_map_iff. exists ct. subst. auto.
Qed.

Lemma In_get_contests_by_tags data_dir ops fd fb fc k v x :
  In x (get_contests_by_tags k v (session_state data_dir ops fd fb fc))
  <-> exists kv tag,
      In kv (contest_log (fc (path_append data_dir "contest_db")) ops)
      /\ fst kv = x /\ In tag (contest.tags (snd kv))
      /\ fst tag = k /\ (v = "" \/ snd tag = v).
Proof.
  pose proof (get_contests_by_tags_perm data_dir ops fd fb fc k v) as P.
  split.
  - intro I. apply (Permutation_in _ P) in I.
    apply in_map_iff in I as (e & E & I). subst x.
    apply filter_In in I as [I F].
    apply andb_true_iff in F as [F1 F2]. apply String.eqb_eq in F1.
    apply In_tag_entries_log in I as (kv & I & J & E).
    exists kv, (contest_tags_index_record.key e,
                contest_tags_index_record.value e).
    repeat split; auto. simpl.
    apply orb_true_iff in F2 as [F2|F2]; apply String.eqb_eq in F2; auto.
  - intros (kv & [tk tv] & I & E & J & Ek & Ev). simpl in Ek, Ev. subst tk.
    apply (Permutation_in _ (Permutation_sym P)).
    apply in_map_iff. exists (contest_tags_index_record.mk k tv x).
    split; trivial. apply filter_In. split.
    + apply In_tag_entries_log. exists kv. simpl. auto.
    + simpl. rewrite String.eqb_refl. simpl. apply orb_true_iff.
      destruct Ev as [->| ->]; [left|right]; apply String.eqb_refl.
Qed.

Lemma In_get_decisions_by_key_session {Key}
  (Index : decision_index_record.t -> Key) eqb key
  data_dir ops fd fb fc x :
  In x (get_decisions_by_key Index eqb key
          (session_state data_dir ops fd fb fc))
  <-> In x (decision_log (fd (path_append data_dir "decision_db")) ops)
      /\ eqb (Index (decision_entry x)) key = true.
Proof.
  rewrite In_get_decisions_by_key. cbn [decision_index session_state].
  split.
  - intros (r & I & F & E). apply In_decision_index_of in I as (k & I & ->).
    simpl in E. subst k. auto.
  - intros (I & F). exists (decision_entry x). repeat split; trivial.
    apply In_decision_index_of. eauto.
Qed.

(** Two session states whose logs hold the same things answer every
    query with the same set. *)
Lemma same_logs_same_queries data_dir ops ops' fd fb fc fd' fb' fc' :
  same_set (decision_log (fd (path_append data_dir "decision_db")) ops)
           (decision_log (fd' (path_append data_dir "decision_db")) ops') ->
  same_set (ballot_log (fb (path_append data_dir "ballot_db")) ops)
           (ballot_log (fb' (path_append data_dir "ballot_db")) ops') ->
  same_set (contest_log (fc (path_append data_dir "contest_db")) ops)
           (contest_log (fc' (path_append data_dir "contest_db")) ops') ->
  same_query_results (session_state data_dir ops fd fb fc)
                     (session_state data_dir ops' fd' fb' fc').
Proof.
  intros Ed Eb Ec. unfold same_query_results.
  repeat (apply conj);
    try (intros k x;
         unfold get_decisions_by_voter, get_decisions_by_contest,
           get_decisions_by_ballot;
         rewrite !In_get_decisions_by_key_session, (Ed x); tauto).
  - simpl. intro x. tauto.
  - intros k x. simpl. tauto.
  - intros k x. rewrite !In_get_ballots_by_contest.
    split; intros (kv & I & J); exists kv; split; trivial; now apply Eb.
  - intro k.
    destruct (get_values_by_tag_session data_dir ops fd fb fc k)
      as (vs & -> & _ & _ & M).
    destruct (get_values_by_tag_session data_dir ops' fd' fb' fc' k)
      as (vs' & -> & _ & _ & M').
    simpl. intro v. rewrite M, M'.
    split; intros (kc & I & J); exists kc; split; trivial; now apply Ec.
  - intros k v x. rewrite !In_get_contests_by_tags.
    split; intros (kv & tag & I & J); exists kv, tag; split; trivial;
      now apply Ec.
  - intros k x. rewrite !In_get_contests_by_contestant.
    split; intros (kv & I & J); exists kv; split; trivial; now apply Ec.
Qed.
End RebuildFacts.

(** * The claims *)

Section Claims.
Context {ids : RecordIdentity}.
Open Scope engine_scope.

(** C1 (the code departs from the claim). A decision stored through
    [store_new_decision] is not what [get_decision] returns for its
    digest: [decision_storage_record]'s constructor drops its
    argument, so the record persisted under [digest d] is the
    default-constructed one, whatever [d] is. *)
Theorem store_new_decision_persists_default data_dir fd fb fc d :
  fst ((ballot_box_open data_dir ;;
        ballot_box_store_new_decision d ;;
        ballot_box_get_decision (digest d)) (ballot_box_new fd fb fc))
  = inr signed_voter_decision.default.
Proof.
  unfold ballot_box_open, bind. rewrite open_new.
  change (ballot_box_store_new_decision d) with (run_store_op (StoreDecision d)).
  rewrite run_store_op_session_state.
  unfold ballot_box_get_decision, read_db, level_map.fetch; simpl.
  unfold level_map.write. rewrite String.eqb_refl.
  now rewrite table_fetch_store.
Qed.

(** C2 (the code departs from the claim). After storing, on an empty
    directory, one decision for contest 7 on ballot 9, the look-ups
    by that contest and by that ballot return nothing, and the
    decision is listed under the all-zero contest and ballot
    instead: the index record is built from the default-constructed
    storage record. *)
Theorem decision_queries_miss_stored_fields data_dir fb fc w o :
  let d := signed_voter_decision.mk 7 9 w o in
  let s := snd (session data_dir [StoreDecision d]
                  (ballot_box_new (fun _ => []) fb fc)) in
  get_decisions_by_contest 7 s = []
  /\ get_decisions_by_ballot 9 s = []
  /\ get_decisions_by_contest 0 s = [digest d]
  /\ get_decisions_by_ballot 0 s = [digest d]
  /\ get_decisions_by_voter
       (address_of_key (voter_public_key signed_voter_decision.default)) s
     = [digest d].
Proof.
  intros d s. subst s. rewrite session_ok.
  unfold get_decisions_by_contest, get_decisions_by_ballot,
    get_decisions_by_voter, get_decisions_by_key; simpl.
  now rewrite Z.eqb_refl.
Qed.

(** C4 (the code departs from the claim). [ballot_box::close] only
    closes [decision_db]: the engine stays marked open, the other two
    tables stay open and the indices stay filled, so opening again
    fails with [AlreadyOpen].  The engine's own [close], which the
    facade does not call, cycles as the claim describes. *)
Theorem facade_close_keeps_engine_open data_dir fd fb fc :
  let opened := snd (ballot_box_open data_dir (ballot_box_new fd fb fc)) in
  let closed := ballot_box_close opened in
  fst closed = inr tt
  /\ ballot_box_is_open (snd closed) = true
  /\ level_map.is_open (decision_db (snd closed)) = false
  /\ level_map.is_open (ballot_db (snd closed)) = true
  /\ level_map.is_open (contest_db (snd closed)) = true
  /\ decision_index (snd closed) = decision_index opened
  /\ ballot_by_contest_index (snd closed) = ballot_by_contest_index opened
  /\ contest_tags_index (snd closed) = contest_tags_index opened
  /\ contest_by_contestant_index (snd closed)
     = contest_by_contestant_index opened
  /\ fst (ballot_box_open data_dir (snd closed)) = inl AlreadyOpen
  /\ fst ((open data_dir ;; close ;; open data_dir ;; close)
            (ballot_box_new fd fb fc)) = inr tt.
Proof.
  intros opened closed. subst closed opened.
  unfold ballot_box_open. rewrite open_new.
  repeat split.
  unfold bind. rewrite open_new, close_session_state, open_new.
  now rewrite close_session_state.
Qed.

(** C6 (the code departs from the claim). Whatever a session stores,
    the write-in index stays empty, because [update_index] reads the
    write-in names of the default-constructed storage record:
    [get_all_write_ins] returns no name and
    [get_decisions_with_write_in] no identifier, also after two
    decisions that both list the name. *)
Theorem write_in_index_stays_empty data_dir ops fd fb fc name :
  let s := snd (session data_dir ops (ballot_box_new fd fb fc)) in
  write_in_index s = []
  /\ get_all_write_ins s = Some []
  /\ get_decisions_with_write_in name s = [].
Proof.
  intro s. subst s. rewrite session_ok. repeat split.
Qed.

(** C9. A store call is the durable write followed by the index
    update: it fails exactly when the durable write fails, with the
    same error and with the engine state, indices included, left as
    it was; when the durable write succeeds the call succeeds, and
    its final state is the index update applied to the state in which
    the record is already persisted. *)
Theorem store_record_persist_then_index (s : ballot_box_impl) (op : store_op) :
  (forall e, fst (run_store_op op s) = inl e ->
             snd (run_store_op op s) = s /\ persist op s = inl e)
  /\ (forall e, persist op s = inl e -> run_store_op op s = (inl e, s))
  /\ (forall s', persist op s = inr s' ->
                 run_store_op op s = (inr tt, index op s')).
Proof.
  destruct op as [d|b|c]; simpl;
    unfold ballot_box_store_new_decision, store_record_decision,
      ballot_box_store_ballot, store_record_ballot,
      ballot_box_store_contest, store_record_contest;
    unfold bind, on_db, modify.
  - destruct (level_map.store (digest d) _ (decision_db s)) as [e'|m];
      simpl; repeat split; intros; congruence.
  - destruct (level_map.store (ballot_id b) b (ballot_db s)) as [e'|m];
      simpl; repeat split; intros; congruence.
  - destruct (level_map.store (contest_id c) c (contest_db s)) as [e'|m];
      simpl; repeat split; intros; congruence.
Qed.

(** C5. After a session that stored any records, [clear] succeeds,
    every query returns nothing, fetching any identifier fails with
    [NotFound], and the engine is still open.  On an engine that is
    not open, [clear] leaves the three tables as they are, empties
    every index and leaves the engine not open. *)
Theorem clear_wipes_everything data_dir ops fd fb fc :
  let s := snd (session data_dir ops (ballot_box_new fd fb fc)) in
  let s' := snd (clear s) in
  (fst (clear s) = inr tt
   /\ databases_open s = true /\ databases_open s' = true
   /\ (forall k, get_decisions_by_voter k s' = [])
   /\ (forall k, get_decisions_by_contest k s' = [])
   /\ (forall k, get_decisions_by_ballot k s' = [])
   /\ get_all_write_ins s' = Some []
   /\ (forall k, get_decisions_with_write_in k s' = [])
   /\ (forall k, get_ballots_by_contest k s' = [])
   /\ (forall k, get_values_by_tag k s' = Some [])
   /\ (forall k v, get_contests_by_tags k v s' = [])
   /\ (forall k, get_contests_by_contestant k s' = [])
   /\ (forall id, fst (ballot_box_get_decision id s') = inl NotFound)
   /\ (forall id, fst (ballot_box_get_ballot id s') = inl NotFound)
   /\ (forall id, fst (ballot_box_get_contest id s') = inl NotFound))
  /\ (forall s0, databases_open s0 = false ->
        fst (clear s0) = inr tt
        /\ decision_db (snd (clear s0)) = decision_db s0
        /\ ballot_db (snd (clear s0)) = ballot_db s0
        /\ contest_db (snd (clear s0)) = contest_db s0
        /\ decision_index (snd (clear s0)) = []
        /\ write_in_index (snd (clear s0)) = []
        /\ ballot_by_contest_index (snd (clear s0)) = []
        /\ contest_tags_index (snd (clear s0)) = []
        /\ contest_by_contestant_index (snd (clear s0)) = []
        /\ databases_open (snd (clear s0)) = false).
Proof.
  intros s s'. subst s' s. rewrite session_ok. split.
  - cbn [snd]. rewrite clear_session_state. cbn [fst snd].
    repeat split;
      try (intros;
           unfold ballot_box_get_decision, ballot_box_get_ballot,
             ballot_box_get_contest, read_db, level_map.fetch;
           cbn [fst decision_db ballot_db contest_db level_map.db level_map.files];
           now rewrite remove_files_at, table_remove_self).
    intros k v. unfold get_contests_by_tags. cbn.
    now destruct (String.eqb v "").
  - intros s0 E. rewrite (clear_closed s0 E). repeat split.
Qed.

(** C7. After a session, [get_values_by_tag k] returns; the list it
    returns is strictly ascending in the byte-wise lexicographic
    order of strings, hence free of repetitions, and holds exactly
    the values that some stored contest (one the table held at [open]
    or one the session stored) has tagged under [k]. *)
Theorem get_values_by_tag_distinct_ascending data_dir ops fd fb fc k :
  let s := snd (session data_dir ops (ballot_box_new fd fb fc)) in
  let stored := contest_log (fc (path_append data_dir "contest_db")) ops in
  exists values,
    get_values_by_tag k s = Some values
    /\ StronglySorted (fun a b => String.ltb a b = true) values
    /\ NoDup values
    /\ forall v, In v values
                 <-> exists kc, In kc stored /\ In (k, v) (contest.tags (snd kc)).
Proof.
  intros s stored. subst s. rewrite session_ok.
  apply get_values_by_tag_session.
Qed.

(** C8. After a session, [get_contests_by_tags k ""] lists, up to
    order, one contest identifier per stored tag entry whose key is
    [k], whatever its value, and for a non-empty [v]
    [get_contests_by_tags k v] lists one per stored tag entry equal
    to [(k, v)].  In particular a contest tagged
    [("region","north")] and [("region","south")], stored on an
    empty directory, is listed twice by the query for "region" with
    the empty value. *)
Theorem get_contests_by_tags_wildcard data_dir ops fd fb fc k v :
  let s := snd (session data_dir ops (ballot_box_new fd fb fc)) in
  let entries :=
    flat_map tag_entries
      (contest_log (fc (path_append data_dir "contest_db")) ops) in
  Permutation
    (get_contests_by_tags k "" s)
    (map contest_tags_index_record.contest_id
       (filter (fun e => String.eqb (contest_tags_index_record.key e) k)
          entries))
  /\ (v <> "" ->
      Permutation
        (get_contests_by_tags k v s)
        (map contest_tags_index_record.contest_id
           (filter (fun e => String.eqb (contest_tags_index_record.key e) k
                             && String.eqb (contest_tags_index_record.value e) v)
              entries)))
  /\ (forall c,
        fc (path_append data_dir "contest_db") = [] ->
        ops = [StoreContest c] ->
        contest.tags c = [("region", "north"); ("region", "south")] ->
        get_contests_by_tags "region" "" s = [contest_id c; contest_id c]).
Proof.
  intros s entries.
  assert (W : forall k' v',
    Permutation
      (get_contests_by_tags k' v' s)
      (map contest_tags_index_record.contest_id
         (filter
            (fun e =>
               String.eqb (contest_tags_index_record.key e) k'
               && (String.eqb v' ""
                   || String.eqb (contest_tags_index_record.value e) v'))
            entries))).
  { intros k' v'. subst s. rewrite session_ok.
    apply get_contests_by_tags_perm. }
  split; [|split].
  - rewrite (W k ""). simpl.
    erewrite filter_ext by (intro; now rewrite andb_true_r). reflexivity.
  - intro N. rewrite (W k v).
    destruct (String.eqb_spec v "") as [E|_]; [contradiction|]. reflexivity.
  - intros c E0 Eops Etags. specialize (W "region" "").
    subst entries. unfold contest_log in W. rewrite E0, Eops in W.
    simpl in W. unfold tag_entries in W. simpl in W. rewrite Etags in W.
    simpl in W. apply Permutation_sym, Permutation_length_2_inv in W.
    now destruct W.
Qed.

(** C10 (as amended). Storing a record a second time leaves the
    three tables as one store leaves them.  A second store of a
    decision leaves the decision index unchanged, since the index is
    unique by identifier, and the look-ups by voter, contest and
    ballot never list an identifier twice.  A second store of a
    ballot or of a contest inserts the record's entries once more
    into the ballot-by-contest, contestant and tag indices, so that
    the look-up of ballots by a contest counts the ballot once more
    for each time the ballot lists the contest. *)
Theorem second_store_duplicates_multimap_entries data_dir ops op fd fb fc :
  let s1 := snd (session data_dir (ops ++ [op]) (ballot_box_new fd fb fc)) in
  let s2 := snd (session data_dir (ops ++ [op; op]) (ballot_box_new fd fb fc)) in
  level_map.contents (decision_db s2) = level_map.contents (decision_db s1)
  /\ level_map.contents (ballot_db s2) = level_map.contents (ballot_db s1)
  /\ level_map.contents (contest_db s2) = level_map.contents (contest_db s1)
  /\ (forall k, NoDup (get_decisions_by_voter k s2))
  /\ (forall k, NoDup (get_decisions_by_contest k s2))
  /\ (forall k, NoDup (get_decisions_by_ballot k s2))
  /\ match op with
     | StoreDecision d => decision_index s2 = decision_index s1
     | StoreBallot b =>
         Permutation (ballot_by_contest_index s2)
           (ballot_by_contest_index s1 ++ ballot_entries (ballot_id b, b))
         /\ forall c,
             count_occ Z.eq_dec (get_ballots_by_contest c s2) (ballot_id b)
             = (count_occ Z.eq_dec (get_ballots_by_contest c s1) (ballot_id b)
                + count_occ Z.eq_dec (ballot.contests b) c)%nat
     | StoreContest c =>
         Permutation (contest_by_contestant_index s2)
           (contest_by_contestant_index s1
            ++ contestant_entries (contest_id c, c))
         /\ Permutation (contest_tags_index s2)
              (contest_tags_index s1 ++ tag_entries (contest_id c, c))
     end.
Proof.
  intros s1 s2. subst s1 s2. rewrite !session_ok. cbn [snd].
  unfold level_map.contents.
  cbn [decision_db ballot_db contest_db level_map.db level_map.files
       session_state].
  rewrite !store_files_at.
  split; [|split; [|split; [|split; [|split; [|split]]]]];
    try (intro k; apply get_decisions_by_key_NoDup).
  - rewrite !decisions_of_app. destruct op; simpl; trivial.
    rewrite !map_app. apply table_store_all_twice.
  - rewrite !ballots_of_app. destruct op; simpl; trivial.
    rewrite !map_app. apply table_store_all_twice.
  - rewrite !contests_of_app. destruct op; simpl; trivial.
    rewrite !map_app. apply table_store_all_twice.
  - destruct op as [d|b|c].
    + cbn [decision_index session_state]. unfold decision_log.
      rewrite !decisions_of_app; simpl. rewrite !map_app; simpl.
      rewrite !app_assoc.
      change ([digest d; digest d]) with ([digest d] ++ [digest d]).
      rewrite app_assoc, (decision_index_of_snoc _ (digest d)).
      rewrite decision_index_of_snoc. apply decision_index_insert_twice.
    + split.
      * cbn [ballot_by_contest_index session_state]. unfold ballot_log.
        rewrite !ballots_of_app; simpl. rewrite !map_app; simpl.
        rewrite !app_assoc, !flat_map_app; simpl. rewrite !app_nil_r.
        rewrite !insert_all_perm; simpl.
        now rewrite <- !app_assoc.
      * intro c.
        rewrite (proj1 (Permutation_count_occ Z.eq_dec _ _)
                   (get_ballots_by_contest_perm data_dir
                      (ops ++ [StoreBallot b; StoreBallot b]) fd fb fc c)).
        rewrite (proj1 (Permutation_count_occ Z.eq_dec _ _)
                   (get_ballots_by_contest_perm data_dir
                      (ops ++ [StoreBallot b]) fd fb fc c)).
        unfold ballot_log. rewrite !ballots_of_app; simpl.
        rewrite !map_app; simpl. rewrite !app_assoc, !flat_map_app; simpl.
        rewrite !app_nil_r, !filter_app, !map_app, !count_occ_app.
        rewrite !count_ballot_entries. lia.
    + split.
      * cbn [contest_by_contestant_index session_state]. unfold contest_log.
        rewrite !contests_of_app; simpl. rewrite !map_app; simpl.
        rewrite !app_assoc, !flat_map_app; simpl. rewrite !app_nil_r.
        rewrite !insert_all_perm; simpl.
        now rewrite <- !app_assoc.
      * cbn [contest_tags_index session_state]. unfold contest_log.
        rewrite !contests_of_app; simpl. rewrite !map_app; simpl.
        rewrite !app_assoc, !flat_map_app; simpl. rewrite !app_nil_r.
        rewrite !insert_all_perm; simpl.
        now rewrite <- !app_assoc.
Qed.

(** C3 (the code departs from the claim). After any session the
    facade's [close] succeeds but only closes the decision table, so
    the re-open is refused with [AlreadyOpen]: no rebuild from the
    tables runs, the engine is left exactly as the [close] left it, the
    indices are still the ones built incrementally and the decision
    table stays closed, so that fetching a decision fails. *)
Theorem reopen_after_facade_close_is_refused data_dir ops fd fb fc :
  let s1 := snd (session data_dir ops (ballot_box_new fd fb fc)) in
  let closed := ballot_box_close s1 in
  let reopened := ballot_box_open data_dir (snd closed) in
  fst closed = inr tt
  /\ fst reopened = inl AlreadyOpen
  /\ snd reopened = snd closed
  /\ ballot_box_is_open (snd reopened) = true
  /\ level_map.is_open (decision_db (snd reopened)) = false
  /\ decision_index (snd reopened) = decision_index s1
  /\ ballot_by_contest_index (snd reopened) = ballot_by_contest_index s1
  /\ contest_tags_index (snd reopened) = contest_tags_index s1
  /\ contest_by_contestant_index (snd reopened)
     = contest_by_contestant_index s1
  /\ (forall id,
        fst (ballot_box_get_decision id (snd reopened)) = inl NotOpen).
Proof.
  intros s1 closed reopened. subst reopened closed s1.
  rewrite session_ok. cbn [snd]. repeat split.
Qed.

(** X15. Take a session on a fresh engine in which no identifier
    names two different ballots or two different contests (the
    records the tables held at [open] included).  Then the engine's
    own [close], [ballot_box_impl::close], succeeds, opening the same
    directory again succeeds, and every query gives the same set of
    results after the re-open as before the close.  After the facade's
    [close], which does not close the engine, opening again is refused
    and the query results are likewise unchanged. *)
Theorem rebuild_equivalence data_dir ops fd fb fc :
  functional_log (ballot_log (fb (path_append data_dir "ballot_db")) ops) ->
  functional_log (contest_log (fc (path_append data_dir "contest_db")) ops) ->
  let s1 := snd (session data_dir ops (ballot_box_new fd fb fc)) in
  (exists s2 s3,
      close s1 = (inr tt, s2)
      /\ open data_dir s2 = (inr tt, s3)
      /\ same_query_results s1 s3)
  /\ (exists s2,
        ballot_box_close s1 = (inr tt, s2)
        /\ fst (ballot_box_open data_dir s2) = inl AlreadyOpen
        /\ same_query_results s1 (snd (ballot_box_open data_dir s2))).
Proof.
  intros Fb Fc s1. subst s1. rewrite session_ok. cbn [snd]. split.
  - eexists. eexists. split; [apply close_session_state|].
    split; [apply open_new|].
    apply same_logs_same_queries;
      cbn [decision_db ballot_db contest_db level_map.files session_state];
      intro x.
    + unfold decision_log. simpl. rewrite app_nil_r, store_files_at.
      rewrite table_store_all_keys, in_app_iff, map_map. simpl. tauto.
    + unfold ballot_log at 2. simpl. rewrite app_nil_r, store_files_at.
      symmetry. now apply In_table_store_all.
    + unfold contest_log at 2. simpl. rewrite app_nil_r, store_files_at.
      symmetry. now apply In_table_store_all.
  - eexists. split; [reflexivity|]. split; [reflexivity|].
    apply (same_logs_same_queries data_dir ops ops fd fb fc fd fb fc);
      intro x; tauto.
Qed.
End Claims.

(** * Concrete runs *)

Section Witnesses.
Import Example.
Existing Instance Example.ids.
Open Scope engine_scope.

(** X15 on the example session: no identifier names two records, the
    engine's close and the re-open succeed and the queries agree. *)
Lemma rebuild_equivalence_witness :
  functional_log (ballot_log (no_files (path_append "data" "ballot_db")) ops)
  /\ functional_log
       (contest_log (no_files (path_append "data" "contest_db")) ops)
  /\ let s1 := snd (session "data" ops fresh) in
     (exists s2 s3,
         close s1 = (inr tt, s2)
         /\ open "data" s2 = (inr tt, s3)
         /\ same_query_results s1 s3)
     /\ (exists s2,
           ballot_box_close s1 = (inr tt, s2)
           /\ fst (ballot_box_open "data" s2) = inl AlreadyOpen
           /\ same_query_results s1 (snd (ballot_box_open "data" s2))).
Proof.
  assert (Fb : functional_log
                 (ballot_log (no_files (path_append "data" "ballot_db")) ops)).
  { intros kv kv' [<-|[<-|[]]] [<-|[<-|[]]] _; reflexivity. }
  assert (Fc : functional_log
                 (contest_log (no_files (path_append "data" "contest_db")) ops)).
  { intros kv kv' [<-|[]] [<-|[]] _; reflexivity. }
  split; [exact Fb|]. split; [exact Fc|].
  exact (rebuild_equivalence "data" ops no_files no_files no_files Fb Fc).
Defined.

(** C5 on the example session, and on the fresh engine, which is not
    open. *)
Lemma clear_wipes_everything_witness :
  databases_open fresh = false
  /\ fst (clear (snd (session "data" ops fresh))) = inr tt
  /\ fst (ballot_box_get_ballot (ballot_id ballot1)
            (snd (clear (snd (session "data" ops fresh))))) = inl NotFound
  /\ fst (clear fresh) = inr tt
  /\ ballot_db (snd (clear fresh)) = ballot_db fresh
  /\ databases_open (snd (clear fresh)) = false.
Proof.
  pose proof (clear_wipes_everything "data" ops no_files no_files no_files)
    as [Open Closed].
  cbv zeta in Open. specialize (Closed fresh eq_refl).
  split; [reflexivity|]. split; [apply Open|]. split; [apply Open|].
  split; [apply Closed|]. split; apply Closed.
Defined.

(** C8 on the example session: the query for "region" with the empty
    value lists the contest twice, the one for ("region", "south")
    once. *)
Lemma get_contests_by_tags_wildcard_witness :
  "south" <> ""
  /\ get_contests_by_tags "region" ""
       (snd (session "data" [StoreContest contest1] fresh))
     = [contest_id contest1; contest_id contest1]
  /\ Permutation
       (get_contests_by_tags "region" "south"
          (snd (session "data" [StoreContest contest1] fresh)))
       [contest_id contest1].
Proof.
  assert (N : "south" <> "") by discriminate.
  pose proof (get_contests_by_tags_wildcard "data" [StoreContest contest1]
                no_files no_files no_files "region" "south")
    as (_ & Exact & Twice).
  split; [exact N|]. split.
  - exact (Twice contest1 eq_refl eq_refl eq_refl).
  - exact (Exact N).
Defined.

(** C9 on the fresh engine: the ballot table is not open, the store
    call fails with that error and the engine is as it was. *)
Lemma store_record_persist_then_index_witness :
  fst (run_store_op (StoreBallot ballot1) fresh) = inl NotOpen
  /\ snd (run_store_op (StoreBallot ballot1) fresh) = fresh
  /\ persist (StoreBallot ballot1) fresh = inl NotOpen.
Proof.
  split; [reflexivity|].
  exact (proj1 (store_record_persist_then_index fresh (StoreBallot ballot1))
           NotOpen eq_refl).
Defined.

(** C10 as stated fails: after the same decision is stored twice, no
    decision query lists its identifier twice. *)
Lemma second_decision_store_not_listed_twice :
  let s := snd (session "data" [StoreDecision decision1; StoreDecision decision1]
                  fresh) in
  ~ exists result,
      In result
        [get_decisions_by_voter
           (address_of_key (voter_public_key decision1)) s;
         get_decisions_by_voter
           (address_of_key (voter_public_key signed_voter_decision.default)) s;
         get_decisions_by_contest 7 s; get_decisions_by_contest 0 s;
         get_decisions_by_ballot 9 s; get_decisions_by_ballot 0 s;
         get_decisions_with_write_in "Alice Smith" s]
      /\ count_occ Z.eq_dec result (digest decision1) = 2%nat.
Proof.
  intros s (result & I & E). vm_compute in I.
  repeat (destruct I as [<-|I]; [vm_compute in E; discriminate|]).
  exact I.
Qed.
End Witnesses.

(** * Further properties *)

(** ** Order of the elements of an equal range *)

Section StableInsertFacts.
Context {A K : Type} `{KeyOrder K}.
Variable key : A -> K.

(** An inserted element comes last among the elements of its key. *)
Lemma filter_insert k e l :
  sorted_by key l ->
  filter (fun x => key_eqb (key x) k) (insert key e l)
  = filter (fun x => key_eqb (key x) k) l
    ++ (if key_eqb (key e) k then [e] else []).
Proof.
  assert (Hc : forall (f : A -> bool) a l0,
             filter f (a :: l0) = if f a then a :: filter f l0 else filter f l0)
    by reflexivity.
  induction l as [|x t IH]; intro S.
  - simpl. now destruct (key_eqb (key e) k).
  - pose proof (sorted_by_inv key x t S) as [S1 S2].
    cbn [insert]. destruct (key_lt (key e) (key x)) eqn:E.
    + rewrite (Hc _ e (x :: t)). destruct (key_eqb (key e) k) eqn:Ek.
      * apply key_eqb_eq in Ek. subst k.
        rewrite (filter_none (fun x0 => key_eqb (key x0) (key e)) (x :: t)).
        { reflexivity. }
        intros y [<-|I]; unfold key_eqb.
        -- now rewrite E, andb_false_r.
        -- rewrite (key_lt_le_trans _ _ _ E (S2 y I)). now rewrite andb_false_r.
      * now rewrite app_nil_r.
    + rewrite (Hc _ x (insert key e t)), (Hc _ x t), (IH S1).
      now destruct (key_eqb (key x) k).
Qed.

Lemma filter_insert_all k es : forall idx,
    sorted_by key idx ->
    filter (fun x => key_eqb (key x) k) (insert_all key es idx)
    = filter (fun x => key_eqb (key x) k) idx
      ++ filter (fun x => key_eqb (key x) k) es.
Proof.
  induction es as [|e es IH]; intros idx S; simpl.
  - now rewrite app_nil_r.
  - change (fold_left (fun idx0 e0 => insert key e0 idx0) es (insert key e idx))
      with (insert_all key es (insert key e idx)).
    rewrite IH by now apply insert_sorted.
    rewrite filter_insert by exact S. rewrite <- app_assoc.
    now destruct (key_eqb (key e) k).
Qed.

(** The elements of an [equal_range] over a container built by
    inserts: the inserted elements with that key, in insertion
    order. *)
Lemma equal_range_insert_all_ordered k es :
  range_elems (equal_range key k (insert_all key es [])) (insert_all key es [])
  = filter (fun e => key_eqb (key e) k) es.
Proof.
  rewrite equal_range_filter by apply insert_all_nil_sorted.
  now rewrite filter_insert_all by apply sorted_by_nil.
Qed.
End StableInsertFacts.

(** ** Fetching from a table *)

Section FetchFacts.
Context {V : Type}.

Lemma table_fetch_None k (tb : level_map.table V) :
  level_map.table_fetch k tb = None <-> ~ In k (map fst tb).
Proof.
  induction tb as [|[k' v'] tb IH]; simpl.
  - tauto.
  - destruct (Z.eqb_spec k k') as [->|N].
    + split; [discriminate|]. intro C. exfalso. auto.
    + rewrite IH. split.
      * intros C [E|I]; auto.
      * intros C I. auto.
Qed.

Lemma table_fetch_Some k (tb : level_map.table V) :
  In k (map fst tb) -> exists v, level_map.table_fetch k tb = Some v.
Proof.
  intro I. destruct (level_map.table_fetch k tb) as [v|] eqn:E; eauto.
  apply table_fetch_None in E. contradiction.
Qed.

(** Where an identifier names one record, fetching it gives that
    record. *)
Lemma table_fetch_In k v (tb : level_map.table V) :
  In (k, v) tb -> (forall v', In (k, v') tb -> v' = v) ->
  level_map.table_fetch k tb = Some v.
Proof.
  induction tb as [|[k' v'] tb IH]; simpl; intros I F; [contradiction|].
  destruct (Z.eqb_spec k k') as [->|N].
  - f_equal. apply F. now left.
  - apply IH.
    + destruct I as [E|I]; trivial. inversion E. congruence.
    + intros v0 I0. apply F. now right.
Qed.
End FetchFacts.

(** ** Fetching after a session *)

Section SessionFetchFacts.
Context {V : Type}.

Lemma fetch_after_stores p (kvs : level_map.table V) f kv :
  functional_log (f p ++ kvs) -> In kv (f p ++ kvs) ->
  level_map.fetch (fst kv) (level_map.mk (Some p) (store_files p kvs f))
  = inr (snd kv).
Proof.
  intros F I. unfold level_map.fetch; simpl. rewrite store_files_at.
  rewrite (table_fetch_In (fst kv) (snd kv)); trivial.
  - apply In_table_store_all; trivial. now destruct kv.
  - intros v' I'. apply In_table_store_all in I'; trivial.
    symmetry. apply (F kv (fst kv, v')); trivial.
Qed.

Lemma fetch_stored_iff p (kvs : level_map.table V) f id :
  let m := level_map.mk (Some p) (store_files p kvs f) in
  ((exists v, level_map.fetch id m = inr v) <-> In id (map fst (f p ++ kvs)))
  /\ (level_map.fetch id m = inl NotFound <-> ~ In id (map fst (f p ++ kvs))).
Proof.
  intro m. subst m. unfold level_map.fetch; simpl. rewrite store_files_at.
  assert (K : In id (map fst (table_store_all kvs (f p)))
              <-> In id (map fst (f p ++ kvs))).
  { rewrite table_store_all_keys, map_app, in_app_iff. tauto. }
  destruct (level_map.table_fetch id (table_store_all kvs (f p))) as [v|] eqn:E.
  - assert (I : In id (map fst (table_store_all kvs (f p)))).
    { destruct (in_dec Z.eq_dec id (map fst (table_store_all kvs (f p))))
        as [I|N]; trivial.
      apply table_fetch_None in N. congruence. }
    split; split.
    + intros _. now apply K.
    + intros _. eauto.
    + discriminate.
    + intro N. exfalso. apply N. now apply K.
  - apply table_fetch_None in E. split; split.
    + intros (v & C). discriminate.
    + intro I. exfalso. apply E. now apply K.
    + intros _ I. apply E. now apply K.
    + reflexivity.
Qed.
End SessionFetchFacts.

(** ** More closed forms *)

Section MoreEngineFacts.
Context {ids : RecordIdentity}.

Lemma update_index_decision_general id r s :
  update_index_decision id r s
  = set_write_in_index
      (insert_all fst
         (map (fun w => (w, id))
            (signed_voter_decision.write_in_names
               (decision_storage_record.base r)))
         (write_in_index
            (set_decision_index
               (decision_index_insert (decision_index_record_ctor id r)
                  (decision_index s)) s)))
      (set_decision_index
         (decision_index_insert (decision_index_record_ctor id r)
            (decision_index s)) s).
Proof.
  unfold update_index_decision.
  generalize (set_decision_index
                (decision_index_insert (decision_index_record_ctor id r)
                   (decision_index s)) s).
  induction (signed_voter_decision.write_in_names
               (decision_storage_record.base r)) as [|w ws IH];
    intro s0; simpl.
  - now destruct s0.
  - rewrite IH. now destruct s0.
Qed.

(** After [clear] a session state is the state of a session that has
    stored nothing, over the emptied tables. *)
Lemma clear_session_state_empty data_dir ops fd fb fc :
  let s := session_state data_dir ops fd fb fc in
  let wiped {V} (m : level_map.t V) p :=
    remove_files p (level_map.files m p) (level_map.files m) in
  clear s
  = (inr tt,
     session_state data_dir []
       (wiped (decision_db s) (path_append data_dir "decision_db"))
       (wiped (ballot_db s) (path_append data_dir "ballot_db"))
       (wiped (contest_db s) (path_append data_dir "contest_db"))).
Proof.
  intros s wiped. subst s wiped. cbv beta. rewrite clear_session_state.
  set (Fd := remove_files (path_append data_dir "decision_db") _ _).
  set (Fb := remove_files (path_append data_dir "ballot_db") _ _).
  set (Fc := remove_files (path_append data_dir "contest_db") _ _).
  assert (Hd : Fd (path_append data_dir "decision_db") = [])
    by (subst Fd; rewrite remove_files_at; apply table_remove_self).
  assert (Hb : Fb (path_append data_dir "ballot_db") = [])
    by (subst Fb; rewrite remove_files_at; apply table_remove_self).
  assert (Hc : Fc (path_append data_dir "contest_db") = [])
    by (subst Fc; rewrite remove_files_at; apply table_remove_self).
  clearbody Fd Fb Fc.
  unfold session_state, decision_log, ballot_log, contest_log. simpl.
  now rewrite Hd, Hb, Hc.
Qed.
End MoreEngineFacts.

(** ** Entries of a log under one key *)

Lemma ballot_entries_by_contest (log : list (Z * ballot.t)) c :
  map snd (filter (fun e => fst e =? c) (flat_map ballot_entries log))
  = flat_map
      (fun kv => repeat (fst kv)
                   (count_occ Z.eq_dec (ballot.contests (snd kv)) c))
      log.
Proof.
  induction log as [|kv log IH]; simpl; trivial.
  rewrite filter_app, map_app, IH. f_equal.
  unfold ballot_entries.
  induction (ballot.contests (snd kv)) as [|c' cs IHc]; simpl; trivial.
  destruct (Z.eqb_spec c' c) as [->|N].
  - destruct (Z.eq_dec c c); [|contradiction]. simpl. now rewrite IHc.
  - destruct (Z.eq_dec c' c); [contradiction|]. exact IHc.
Qed.

Lemma contestant_entries_by_name (log : list (Z * contest.t)) n :
  map snd
    (filter (fun e => String.eqb (fst e) n) (flat_map contestant_entries log))
  = flat_map
      (fun kv => repeat (fst kv)
                   (count_occ string_dec
                      (map contestant.name (contest.contestants (snd kv))) n))
      log.
Proof.
  induction log as [|kv log IH]; simpl; trivial.
  rewrite filter_app, map_app, IH. f_equal.
  unfold contestant_entries.
  induction (contest.contestants (snd kv)) as [|ct cts IHc]; simpl; trivial.
  destruct (String.eqb_spec (contestant.name ct) n) as [E|N].
  - destruct (string_dec (contestant.name ct) n); [|contradiction].
    simpl. now rewrite IHc.
  - destruct (string_dec (contestant.name ct) n); [contradiction|]. exact IHc.
Qed.

Section Extras.
Context {ids : RecordIdentity}.
Open Scope engine_scope.

(** X1. In a session in which no identifier names two different
    ballots, every ballot of the log, and so every ballot the session
    stored, is fetched back unchanged by [get_ballot] under its
    identifier. *)
Theorem stored_ballots_fetch_back data_dir ops fd fb fc :
  functional_log (ballot_log (fb (path_append data_dir "ballot_db")) ops) ->
  let s := snd (session data_dir ops (ballot_box_new fd fb fc)) in
  (forall kv,
      In kv (ballot_log (fb (path_append data_dir "ballot_db")) ops) ->
      fst (ballot_box_get_ballot (fst kv) s) = inr (snd kv))
  /\ (forall b, In (StoreBallot b) ops ->
                fst (ballot_box_get_ballot (ballot_id b) s) = inr b).
Proof.
  intros F s. subst s. rewrite session_ok.
  assert (G : forall kv,
    In kv (ballot_log (fb (path_append data_dir "ballot_db")) ops) ->
    fst (ballot_box_get_ballot (fst kv)
           (snd (@inr error unit tt, session_state data_dir ops fd fb fc)))
    = inr (snd kv)).
  { intros kv I. unfold ballot_box_get_ballot, read_db.
    cbn [fst snd ballot_db session_state].
    now apply fetch_after_stores. }
  split; [exact G|]. intros b I.
  apply (G (ballot_id b, b)). unfold ballot_log. apply in_app_iff. right.
  apply in_map_iff. exists b. split; trivial. now apply In_ballots_of.
Qed.

(** X2. In a session in which no identifier names two different
    contests, every contest of the log, and so every contest the
    session stored, is fetched back unchanged by [get_contest] under
    its identifier. *)
Theorem stored_contests_fetch_back data_dir ops fd fb fc :
  functional_log (contest_log (fc (path_append data_dir "contest_db")) ops) ->
  let s := snd (session data_dir ops (ballot_box_new fd fb fc)) in
  (forall kv,
      In kv (contest_log (fc (path_append data_dir "contest_db")) ops) ->
      fst (ballot_box_get_contest (fst kv) s) = inr (snd kv))
  /\ (forall c, In (StoreContest c) ops ->
                fst (ballot_box_get_contest (contest_id c) s) = inr c).
Proof.
  intros F s. subst s. rewrite session_ok.
  assert (G : forall kv,
    In kv (contest_log (fc (path_append data_dir "contest_db")) ops) ->
    fst (ballot_box_get_contest (fst kv)
           (snd (@inr error unit tt, session_state data_dir ops fd fb fc)))
    = inr (snd kv)).
  { intros kv I. unfold ballot_box_get_contest, read_db.
    cbn [fst snd contest_db session_state].
    now apply fetch_after_stores. }
  split; [exact G|]. intros c I.
  apply (G (contest_id c, c)). unfold contest_log. apply in_app_iff. right.
  apply in_map_iff. exists c. split; trivial. now apply In_contests_of.
Qed.

(** X3. After a session, fetching by identifier succeeds exactly for
    the identifiers of the log of that kind (what the table held at
    [open] and what the session stored), and fails with [NotFound]
    exactly for the others. *)
Theorem fetch_succeeds_iff_stored data_dir ops fd fb fc id :
  let s := snd (session data_dir ops (ballot_box_new fd fb fc)) in
  let dlog := decision_log (fd (path_append data_dir "decision_db")) ops in
  let blog := map fst (ballot_log (fb (path_append data_dir "ballot_db")) ops) in
  let clog := map fst (contest_log (fc (path_append data_dir "contest_db")) ops) in
  ((exists d, fst (ballot_box_get_decision id s) = inr d) <-> In id dlog)
  /\ (fst (ballot_box_get_decision id s) = inl NotFound <-> ~ In id dlog)
  /\ ((exists b, fst (ballot_box_get_ballot id s) = inr b) <-> In id blog)
  /\ (fst (ballot_box_get_ballot id s) = inl NotFound <-> ~ In id blog)
  /\ ((exists c, fst (ballot_box_get_contest id s) = inr c) <-> In id clog)
  /\ (fst (ballot_box_get_contest id s) = inl NotFound <-> ~ In id clog).
Proof.
  intros s dlog blog clog. subst s dlog blog clog. rewrite session_ok.
  unfold ballot_box_get_decision, ballot_box_get_ballot,
    ballot_box_get_contest, read_db.
  cbn [fst snd decision_db ballot_db contest_db session_state].
  pose proof (fetch_stored_iff (path_append data_dir "decision_db")
                (map (fun d => (digest d, signed_voter_decision.default))
                   (decisions_of ops)) fd id) as [D1 D2].
  pose proof (fetch_stored_iff (path_append data_dir "ballot_db")
                (map (fun b => (ballot_id b, b)) (ballots_of ops)) fb id)
    as [B1 B2].
  pose proof (fetch_stored_iff (path_append data_dir "contest_db")
                (map (fun c => (contest_id c, c)) (contests_of ops)) fc id)
    as [C1 C2].
  unfold decision_log, ballot_log, contest_log.
  rewrite map_app, map_map in D1, D2. simpl in D1, D2.
  repeat split; try apply D1; try apply D2; try apply B1; try apply B2;
    try apply C1; try apply C2.
Qed.
(** X4. After a session, [get_ballots_by_contest c] lists the ballots
    of the log in the order of the log (table order at [open], then
    store order), each ballot's identifier once for every time the
    ballot lists [c]; it lists nothing when no ballot lists [c]. *)
Theorem get_ballots_by_contest_in_store_order data_dir ops fd fb fc c :
  let s := snd (session data_dir ops (ballot_box_new fd fb fc)) in
  let log := ballot_log (fb (path_append data_dir "ballot_db")) ops in
  get_ballots_by_contest c s
  = flat_map
      (fun kv => repeat (fst kv)
                   (count_occ Z.eq_dec (ballot.contests (snd kv)) c))
      log
  /\ (forall x, In x (get_ballots_by_contest c s)
                <-> exists kv, In kv log /\ fst kv = x
                               /\ In c (ballot.contests (snd kv)))
  /\ ((forall kv, In kv log -> ~ In c (ballot.contests (snd kv))) ->
      get_ballots_by_contest c s = []).
Proof.
  intros s log. subst s. rewrite session_ok. cbn [snd].
  assert (M : forall x,
    In x (get_ballots_by_contest c (session_state data_dir ops fd fb fc))
    <-> exists kv, In kv log /\ fst kv = x /\ In c (ballot.contests (snd kv)))
    by (intro x; apply In_get_ballots_by_contest).
  split; [|split; [exact M|]].
  - unfold get_ballots_by_contest.
    cbn [ballot_by_contest_index session_state]. fold log.
    rewrite equal_range_insert_all_ordered.
    erewrite filter_ext by (intro; apply Z_key_eqb).
    apply ballot_entries_by_contest.
  - intro N.
    destruct (get_ballots_by_contest c (session_state data_dir ops fd fb fc))
      as [|x l] eqn:E; trivial.
    destruct (proj1 (M x) (or_introl eq_refl)) as (kv & I & _ & J).
    exfalso. exact (N kv I J).
Qed.

(** X5. After a session, [get_contests_by_contestant n] lists the
    contests of the log in the order of the log, each contest's
    identifier once for every contestant of the contest named [n]; it
    lists nothing when no contest has a contestant of that name. *)
Theorem get_contests_by_contestant_in_store_order data_dir ops fd fb fc n :
  let s := snd (session data_dir ops (ballot_box_new fd fb fc)) in
  let log := contest_log (fc (path_append data_dir "contest_db")) ops in
  get_contests_by_contestant n s
  = flat_map
      (fun kv => repeat (fst kv)
                   (count_occ string_dec
                      (map contestant.name (contest.contestants (snd kv))) n))
      log
  /\ (forall x, In x (get_contests_by_contestant n s)
                <-> exists kv, In kv log /\ fst kv = x
                               /\ In n (map contestant.name
                                          (contest.contestants (snd kv))))
  /\ ((forall kv, In kv log ->
                  ~ In n (map contestant.name (contest.contestants (snd kv)))) ->
      get_contests_by_contestant n s = []).
Proof.
  intros s log. subst s. rewrite session_ok. cbn [snd].
  assert (M : forall x,
    In x (get_contests_by_contestant n (session_state data_dir ops fd fb fc))
    <-> exists kv, In kv log /\ fst kv = x
                   /\ In n (map contestant.name (contest.contestants (snd kv))))
    by (intro x; apply In_get_contests_by_contestant).
  split; [|split; [exact M|]].
  - unfold get_contests_by_contestant.
    cbn [contest_by_contestant_index session_state]. fold log.
    rewrite equal_range_insert_all_ordered.
    erewrite filter_ext by (intro; apply string_key_eqb).
    apply contestant_entries_by_name.
  - intro N.
    destruct (get_contests_by_contestant n
                (session_state data_dir ops fd fb fc)) as [|x l] eqn:E; trivial.
    destruct (proj1 (M x) (or_introl eq_refl)) as (kv & I & _ & J).
    exfalso. exact (N kv I J).
Qed.

(** X6. After a session no query returns a dangling identifier: every
    ballot identifier listed by [get_ballots_by_contest], every contest
    identifier listed by [get_contests_by_contestant] or
    [get_contests_by_tags] and every decision identifier listed by a
    decision look-up can be fetched from its table. *)
Theorem query_results_are_fetchable data_dir ops fd fb fc :
  let s := snd (session data_dir ops (ballot_box_new fd fb fc)) in
  (forall c x, In x (get_ballots_by_contest c s) ->
               exists b, fst (ballot_box_get_ballot x s) = inr b)
  /\ (forall n x, In x (get_contests_by_contestant n s) ->
                  exists c, fst (ballot_box_get_contest x s) = inr c)
  /\ (forall k v x, In x (get_contests_by_tags k v s) ->
                    exists c, fst (ballot_box_get_contest x s) = inr c)
  /\ (forall k x, In x (get_decisions_by_voter k s) ->
                  exists d, fst (ballot_box_get_decision x s) = inr d)
  /\ (forall k x, In x (get_decisions_by_contest k s) ->
                  exists d, fst (ballot_box_get_decision x s) = inr d)
  /\ (forall k x, In x (get_decisions_by_ballot k s) ->
                  exists d, fst (ballot_box_get_decision x s) = inr d).
Proof.
  intro s.
  assert (F : forall id,
    ((exists d, fst (ballot_box_get_decision id s) = inr d)
     <-> In id (decision_log (fd (path_append data_dir "decision_db")) ops))
    /\ ((exists b, fst (ballot_box_get_ballot id s) = inr b)
        <-> In id (map fst (ballot_log (fb (path_append data_dir "ballot_db")) ops)))
    /\ ((exists c, fst (ballot_box_get_contest id s) = inr c)
        <-> In id (map fst (contest_log (fc (path_append data_dir "contest_db")) ops)))).
  { intro id. subst s. rewrite session_ok.
    unfold ballot_box_get_decision, ballot_box_get_ballot,
      ballot_box_get_contest, read_db.
    cbn [fst snd decision_db ballot_db contest_db session_state].
    pose proof (fetch_stored_iff (path_append data_dir "decision_db")
                  (map (fun d => (digest d, signed_voter_decision.default))
                     (decisions_of ops)) fd id) as [D1 _].
    pose proof (fetch_stored_iff (path_append data_dir "ballot_db")
                  (map (fun b => (ballot_id b, b)) (ballots_of ops)) fb id)
      as [B1 _].
    pose proof (fetch_stored_iff (path_append data_dir "contest_db")
                  (map (fun c => (contest_id c, c)) (contests_of ops)) fc id)
      as [C1 _].
    unfold decision_log, ballot_log, contest_log.
    rewrite map_app, map_map in D1. simpl in D1. auto. }
  assert (E : s = session_state data_dir ops fd fb fc)
    by (subst s; now rewrite session_ok).
  repeat apply conj.
  - intros c x I. apply F. rewrite E in I.
    apply In_get_ballots_by_contest in I as (kv & I & <- & _).
    now apply in_map.
  - intros n x I. apply F. rewrite E in I.
    apply In_get_contests_by_contestant in I as (kv & I & <- & _).
    now apply in_map.
  - intros k v x I. apply F. rewrite E in I.
    apply In_get_contests_by_tags in I as (kv & tag & I & <- & _).
    now apply in_map.
  - intros k x I. apply F. rewrite E in I.
    now apply In_get_decisions_by_key_session in I as [I _].
  - intros k x I. apply F. rewrite E in I.
    now apply In_get_decisions_by_key_session in I as [I _].
  - intros k x I. apply F. rewrite E in I.
    now apply In_get_decisions_by_key_session in I as [I _].
Qed.
(** X7. [clear] puts an open engine back to the state of an engine
    opened on an empty directory: whatever a session stored before the
    [clear], after it and any further store calls the five indices and
    the three tables are those of a session that made only the further
    calls on an empty directory, and the engine is still open. *)
Theorem clear_then_store data_dir ops ops' fd fb fc :
  let run := (session data_dir ops ;; ballot_box_clear ;;
              for_each ops' run_store_op) (ballot_box_new fd fb fc) in
  let ref := session data_dir ops'
               (ballot_box_new (fun _ => []) (fun _ => []) (fun _ => [])) in
  fst run = inr tt
  /\ databases_open (snd run) = true
  /\ decision_index (snd run) = decision_index (snd ref)
  /\ write_in_index (snd run) = write_in_index (snd ref)
  /\ ballot_by_contest_index (snd run) = ballot_by_contest_index (snd ref)
  /\ contest_tags_index (snd run) = contest_tags_index (snd ref)
  /\ contest_by_contestant_index (snd run)
     = contest_by_contestant_index (snd ref)
  /\ level_map.contents (decision_db (snd run))
     = level_map.contents (decision_db (snd ref))
  /\ level_map.contents (ballot_db (snd run))
     = level_map.contents (ballot_db (snd ref))
  /\ level_map.contents (contest_db (snd run))
     = level_map.contents (contest_db (snd ref)).
Proof.
  intros run ref. subst run ref. unfold bind, ballot_box_clear.
  rewrite !session_ok, clear_session_state_empty, for_each_session_state.
  set (Fd := remove_files (path_append data_dir "decision_db") _ _).
  set (Fb := remove_files (path_append data_dir "ballot_db") _ _).
  set (Fc := remove_files (path_append data_dir "contest_db") _ _).
  assert (Hd : Fd (path_append data_dir "decision_db") = [])
    by (subst Fd; rewrite remove_files_at; apply table_remove_self).
  assert (Hb : Fb (path_append data_dir "ballot_db") = [])
    by (subst Fb; rewrite remove_files_at; apply table_remove_self).
  assert (Hc : Fc (path_append data_dir "contest_db") = [])
    by (subst Fc; rewrite remove_files_at; apply table_remove_self).
  clearbody Fd Fb Fc.
  unfold level_map.contents.
  cbn [fst snd app session_state decision_db ballot_db contest_db
       decision_index write_in_index ballot_by_contest_index
       contest_tags_index contest_by_contestant_index databases_open
       level_map.db level_map.files].
  unfold decision_log, ballot_log, contest_log.
  rewrite !store_files_at, Hd, Hb, Hc.
  repeat split.
Qed.

(** X8. Over any write-in index in key order, [get_all_write_ins]
    returns, and lists every name of the index exactly once, in
    strictly ascending byte-wise lexicographic order. *)
Theorem get_all_write_ins_distinct_ascending s :
  sorted_by fst (write_in_index s) ->
  exists names,
    get_all_write_ins s = Some names
    /\ StronglySorted (fun a b => String.ltb a b = true) names
    /\ NoDup names
    /\ forall n, In n names <-> exists id, In (n, id) (write_in_index s).
Proof.
  intro S. destruct (get_all_write_ins_scan s S) as (names & R & Ss & M).
  exists names. repeat split; trivial; try apply M.
  now apply strictly_ascending_NoDup.
Qed.

(** X9. Over any write-in index in key order,
    [get_decisions_with_write_in name] returns the identifiers of
    exactly the entries whose name is [name], in index order. *)
Theorem get_decisions_with_write_in_exact name s :
  sorted_by fst (write_in_index s) ->
  get_decisions_with_write_in name s
  = map snd (filter (fun e => String.eqb (fst e) name) (write_in_index s)).
Proof.
  intro S. unfold get_decisions_with_write_in.
  rewrite equal_range_filter by exact S.
  now erewrite filter_ext by (intro; apply string_key_eqb).
Qed.

(** X10. [update_index] for a decision, given a storage record that
    carries its decision: the write-in index stays in key order and
    the look-up by any name gains the identifier once per occurrence
    of the name among the record's write-ins; when the identifier is
    new to the decision index, the look-ups by the record's voter
    address, contest and ballot each list, in some order, what they
    listed before together with the identifier; when it is already
    there, the decision index is left as it is. *)
Theorem update_index_decision_indexes_record id r s :
  sorted_by fst (write_in_index s) ->
  let s' := update_index_decision id r s in
  let d := decision_storage_record.base r in
  sorted_by fst (write_in_index s')
  /\ (forall w,
        get_decisions_with_write_in w s'
        = get_decisions_with_write_in w s
          ++ repeat id
               (count_occ string_dec (signed_voter_decision.write_in_names d) w))
  /\ (~ In id (map decision_index_record.id (decision_index s)) ->
      Permutation
        (get_decisions_by_voter
           (address_of_key (decision_storage_record.voter_key r)) s')
        (id :: get_decisions_by_voter
                 (address_of_key (decision_storage_record.voter_key r)) s)
      /\ Permutation
           (get_decisions_by_contest (signed_voter_decision.contest_id d) s')
           (id :: get_decisions_by_contest
                    (signed_voter_decision.contest_id d) s)
      /\ Permutation
           (get_decisions_by_ballot (signed_voter_decision.ballot_id d) s')
           (id :: get_decisions_by_ballot
                    (signed_voter_decision.ballot_id d) s))
  /\ (In id (map decision_index_record.id (decision_index s)) ->
      decision_index s' = decision_index s).
Proof.
  intros S s' d. subst s' d. rewrite update_index_decision_general.
  set (names := signed_voter_decision.write_in_names
                  (decision_storage_record.base r)).
  assert (Ew : forall X s0, write_in_index (set_write_in_index X s0) = X)
    by (intros X s0; now destruct s0).
  assert (Ed : forall X s0,
             decision_index (set_write_in_index X s0) = decision_index s0)
    by (intros X s0; now destruct s0).
  assert (Ed' : forall X s0, decision_index (set_decision_index X s0) = X)
    by (intros X s0; now destruct s0).
  assert (Ew' : forall X s0,
             write_in_index (set_decision_index X s0) = write_in_index s0)
    by (intros X s0; now destruct s0).
  split; [|split; [|split]].
  - rewrite Ew, Ew'. now apply insert_all_sorted.
  - intro w. unfold get_decisions_with_write_in. rewrite Ew, Ew'.
    rewrite equal_range_filter by now apply insert_all_sorted.
    rewrite equal_range_filter by exact S.
    rewrite filter_insert_all by exact S. rewrite map_app. f_equal.
    induction names as [|n ns IH]; simpl; trivial.
    rewrite string_key_eqb.
    destruct (String.eqb_spec n w) as [E|N].
    + destruct (string_dec n w); [|contradiction]. simpl. now rewrite IH.
    + destruct (string_dec n w); [contradiction|]. exact IH.
  - intro N.
    unfold get_decisions_by_voter, get_decisions_by_contest,
      get_decisions_by_ballot, get_decisions_by_key.
    rewrite !Ed, !Ed'. unfold decision_index_insert.
    assert (E : existsb
                  (fun r' => decision_index_record.id r'
                             =? decision_index_record.id
                                  (decision_index_record_ctor id r))
                  (decision_index s) = false).
    { destruct (existsb _ (decision_index s)) eqn:E; trivial.
      apply existsb_id in E. simpl in E. contradiction. }
    rewrite E, !filter_app, !map_app. simpl. rewrite !Z.eqb_refl. simpl.
    repeat split; symmetry; apply Permutation_cons_append.
  - intro I. rewrite Ed, Ed'. unfold decision_index_insert.
    now rewrite (proj2 (existsb_id (decision_index_record_ctor id r)
                          (decision_index s)) I).
Qed.

(** X11. The engine's own [close] after a session succeeds: the
    engine is marked closed, the five indices are empty, the three
    tables are closed and keep their files.  On the engine it leaves, a
    second [close], every store call and every fetch fail with
    [NotOpen], and the failing [close] and store calls change
    nothing. *)
Theorem close_after_session data_dir ops fd fb fc :
  let s := snd (session data_dir ops (ballot_box_new fd fb fc)) in
  let s2 := snd (close s) in
  fst (close s) = inr tt
  /\ databases_open s2 = false
  /\ decision_index s2 = [] /\ write_in_index s2 = []
  /\ ballot_by_contest_index s2 = [] /\ contest_tags_index s2 = []
  /\ contest_by_contestant_index s2 = []
  /\ level_map.is_open (decision_db s2) = false
  /\ level_map.is_open (ballot_db s2) = false
  /\ level_map.is_open (contest_db s2) = false
  /\ level_map.files (decision_db s2) = level_map.files (decision_db s)
  /\ level_map.files (ballot_db s2) = level_map.files (ballot_db s)
  /\ level_map.files (contest_db s2) = level_map.files (contest_db s)
  /\ close s2 = (inl NotOpen, s2)
  /\ (forall op, run_store_op op s2 = (inl NotOpen, s2))
  /\ (forall id, fst (ballot_box_get_decision id s2) = inl NotOpen)
  /\ (forall id, fst (ballot_box_get_ballot id s2) = inl NotOpen)
  /\ (forall id, fst (ballot_box_get_contest id s2) = inl NotOpen).
Proof.
  intros s s2. subst s2 s. rewrite session_ok. cbn [snd].
  rewrite close_session_state. cbn [fst snd].
  repeat split. intros [d|b|c]; reflexivity.
Qed.

(** X12. After a session and the facade's [close], which closes the
    decision table only: storing a decision, fetching a decision,
    [clear] and a second [close] all fail with [NotOpen], and the
    failing store, [clear] and [close] leave the engine, its filled
    indices included, as it was; storing a ballot or a contest still
    succeeds, and the ballot is entered into the ballot-by-contest
    index. *)
Theorem after_facade_close data_dir ops fd fb fc :
  let s := snd (session data_dir ops (ballot_box_new fd fb fc)) in
  let s2 := snd (ballot_box_close s) in
  (forall d, ballot_box_store_new_decision d s2 = (inl NotOpen, s2))
  /\ (forall id, fst (ballot_box_get_decision id s2) = inl NotOpen)
  /\ ballot_box_clear s2 = (inl NotOpen, s2)
  /\ ballot_box_close s2 = (inl NotOpen, s2)
  /\ decision_index s2 = decision_index s
  /\ ballot_by_contest_index s2 = ballot_by_contest_index s
  /\ contest_tags_index s2 = contest_tags_index s
  /\ contest_by_contestant_index s2 = contest_by_contestant_index s
  /\ (forall b,
        fst (ballot_box_store_ballot b s2) = inr tt
        /\ ballot_by_contest_index (snd (ballot_box_store_ballot b s2))
           = insert_all fst (ballot_entries (ballot_id b, b))
               (ballot_by_contest_index s))
  /\ (forall c, fst (ballot_box_store_contest c s2) = inr tt).
Proof.
  intros s s2. subst s2 s. rewrite session_ok. cbn [snd].
  repeat split.
  unfold ballot_box_store_ballot, store_record_ballot, ballot_box_close,
    bind, modify. unfold on_db.
  cbn [fst snd ballot_db decision_db set_decision_db session_state
       level_map.store level_map.close level_map.db level_map.files].
  now rewrite update_index_ballot_closed.
Qed.

(** X14. Fetching is durable: after a session, the engine's [close]
    and a re-open of the same directory, fetching any identifier from
    any of the three tables gives what it gave before the close. *)
Theorem fetch_survives_reopen data_dir ops fd fb fc id :
  let s1 := snd (session data_dir ops (ballot_box_new fd fb fc)) in
  let reopened := (close ;; open data_dir) s1 in
  fst reopened = inr tt
  /\ fst (ballot_box_get_decision id (snd reopened))
     = fst (ballot_box_get_decision id s1)
  /\ fst (ballot_box_get_ballot id (snd reopened))
     = fst (ballot_box_get_ballot id s1)
  /\ fst (ballot_box_get_contest id (snd reopened))
     = fst (ballot_box_get_contest id s1).
Proof.
  intros s1 reopened. subst reopened s1. unfold bind.
  rewrite session_ok. cbn [snd]. rewrite close_session_state, open_new.
  repeat split.
Qed.
End Extras.

(** ** Concrete runs of the further properties *)

Section ExtraWitnesses.
Import Example IndexedExample.
Existing Instance Example.ids.
Open Scope engine_scope.

Lemma example_ballot_log_functional :
  functional_log (ballot_log (no_files (path_append "data" "ballot_db")) ops).
Proof. intros kv kv' [<-|[<-|[]]] [<-|[<-|[]]] _; reflexivity. Defined.

Lemma example_contest_log_functional :
  functional_log (contest_log (no_files (path_append "data" "contest_db")) ops).
Proof. intros kv kv' [<-|[]] [<-|[]] _; reflexivity. Defined.

Lemma example_index_sorted : sorted_by fst (write_in_index indexed).
Proof.
  unfold sorted_by. vm_compute.
  repeat (constructor; try reflexivity).
Defined.

(** X1 on the example session. *)
Lemma stored_ballots_fetch_back_witness :
  functional_log (ballot_log (no_files (path_append "data" "ballot_db")) ops)
  /\ In (StoreBallot ballot1) ops
  /\ fst (ballot_box_get_ballot (ballot_id ballot1)
            (snd (session "data" ops fresh))) = inr ballot1.
Proof.
  assert (I : In (StoreBallot ballot1) ops) by (right; left; reflexivity).
  split; [exact example_ballot_log_functional|]. split; [exact I|].
  exact (proj2 (stored_ballots_fetch_back "data" ops no_files no_files no_files
                  example_ballot_log_functional) ballot1 I).
Defined.

(** X2 on the example session. *)
Lemma stored_contests_fetch_back_witness :
  functional_log (contest_log (no_files (path_append "data" "contest_db")) ops)
  /\ In (StoreContest contest1) ops
  /\ fst (ballot_box_get_contest (contest_id contest1)
            (snd (session "data" ops fresh))) = inr contest1.
Proof.
  assert (I : In (StoreContest contest1) ops) by (left; reflexivity).
  split; [exact example_contest_log_functional|]. split; [exact I|].
  exact (proj2 (stored_contests_fetch_back "data" ops no_files no_files no_files
                  example_contest_log_functional) contest1 I).
Defined.

(** X4 on the example session: no ballot lists contest 99. *)
Lemma get_ballots_by_contest_in_store_order_witness :
  (forall kv, In kv (ballot_log (no_files (path_append "data" "ballot_db")) ops)
              -> ~ In 99 (ballot.contests (snd kv)))
  /\ get_ballots_by_contest 99 (snd (session "data" ops fresh)) = [].
Proof.
  assert (N : forall kv,
             In kv (ballot_log (no_files (path_append "data" "ballot_db")) ops)
             -> ~ In 99 (ballot.contests (snd kv))).
  { intros kv [<-|[<-|[]]] [E|[E|[]]]; discriminate. }
  split; [exact N|].
  exact (proj2 (proj2 (get_ballots_by_contest_in_store_order "data" ops
                         no_files no_files no_files 99)) N).
Defined.

(** X5 on the example session: no contest has a contestant "Nobody". *)
Lemma get_contests_by_contestant_in_store_order_witness :
  (forall kv,
      In kv (contest_log (no_files (path_append "data" "contest_db")) ops)
      -> ~ In "Nobody" (map contestant.name (contest.contestants (snd kv))))
  /\ get_contests_by_contestant "Nobody" (snd (session "data" ops fresh)) = [].
Proof.
  assert (N : forall kv,
             In kv (contest_log (no_files (path_append "data" "contest_db")) ops)
             -> ~ In "Nobody"
                  (map contestant.name (contest.contestants (snd kv)))).
  { intros kv [<-|[]] [E|[]]; discriminate. }
  split; [exact N|].
  exact (proj2 (proj2 (get_contests_by_contestant_in_store_order "data" ops
                         no_files no_files no_files "Nobody")) N).
Defined.

(** X6 on the example session: the ballot listed for contest 7 can be
    fetched. *)
Lemma query_results_are_fetchable_witness :
  In (ballot_id ballot1)
     (get_ballots_by_contest 7 (snd (session "data" ops fresh)))
  /\ exists b, fst (ballot_box_get_ballot (ballot_id ballot1)
                      (snd (session "data" ops fresh))) = inr b.
Proof.
  assert (I : In (ballot_id ballot1)
                (get_ballots_by_contest 7 (snd (session "data" ops fresh))))
    by (vm_compute; left; reflexivity).
  split; [exact I|].
  exact (proj1 (query_results_are_fetchable "data" ops no_files no_files
                  no_files) 7 (ballot_id ballot1) I).
Defined.

(** X8 on an index holding "Alice Smith" twice. *)
Lemma get_all_write_ins_distinct_ascending_witness :
  sorted_by fst (write_in_index indexed)
  /\ exists names,
      get_all_write_ins indexed = Some names
      /\ StronglySorted (fun a b => String.ltb a b = true) names
      /\ NoDup names
      /\ forall n, In n names <-> exists id, In (n, id) (write_in_index indexed).
Proof.
  split; [exact example_index_sorted|].
  exact (get_all_write_ins_distinct_ascending indexed example_index_sorted).
Defined.

(** X9 on the same index. *)
Lemma get_decisions_with_write_in_exact_witness :
  sorted_by fst (write_in_index indexed)
  /\ get_decisions_with_write_in "Alice Smith" indexed
     = map snd (filter (fun e => String.eqb (fst e) "Alice Smith")
                  (write_in_index indexed)).
Proof.
  split; [exact example_index_sorted|].
  exact (get_decisions_with_write_in_exact "Alice Smith" indexed
           example_index_sorted).
Defined.

(** X10 on an engine that already indexes one decision, for a second
    decision on the same ballot. *)
Lemma update_index_decision_indexes_record_witness :
  let s := update_index_decision 1 record1 fresh in
  sorted_by fst (write_in_index s)
  /\ ~ In 2 (map decision_index_record.id (decision_index s))
  /\ get_decisions_with_write_in "Alice Smith"
       (update_index_decision 2 record2 s)
     = get_decisions_with_write_in "Alice Smith" s
       ++ repeat 2
            (count_occ string_dec
               (signed_voter_decision.write_in_names
                  (decision_storage_record.base record2)) "Alice Smith")
  /\ Permutation
       (get_decisions_by_ballot
          (signed_voter_decision.ballot_id (decision_storage_record.base record2))
          (update_index_decision 2 record2 s))
       (2 :: get_decisions_by_ballot
               (signed_voter_decision.ballot_id
                  (decision_storage_record.base record2)) s).
Proof.
  intro s.
  assert (S : sorted_by fst (write_in_index s)).
  { unfold sorted_by. vm_compute. repeat (constructor; try reflexivity). }
  assert (N : ~ In 2 (map decision_index_record.id (decision_index s))).
  { vm_compute. intros [E|[]]. discriminate. }
  pose proof (update_index_decision_indexes_record 2 record2 s S)
    as (_ & W & New & _).
  split; [exact S|]. split; [exact N|]. split; [exact (W "Alice Smith")|].
  exact (proj2 (proj2 (New N))).
Defined.
End ExtraWitnesses.
